(** * Nova animatronic head: firmware model

  A shallow embedding of [nova_arduino.ino], the sketch that drives the
  four servos of the head (neck, jaw, eye, z) from a line protocol on the
  serial port, and the properties of its control loop.

  Layout:
  - [MachineInt]: the integer types of the AVR boards the sketch targets
    (Uno, Mega): [int] is 16 bits, [long] and [unsigned long] are 32 bits;
  - [WString]: the operations of the Arduino [String] class the sketch
    calls ([trim], [indexOf], [substring], [toInt], [equalsIgnoreCase]);
  - [Nova]: the sketch itself, one definition per function, with the
    globals gathered in a record and the servo and serial calls logged
    as a list of events;
  - [Calibration]: the companion calibration sketch, all of it one
    [setup];
  - the theorems. *)

From Stdlib Require Import ZArith List String Ascii Bool Lia.
From Stdlib Require DecimalString DecimalNat.
Import ListNotations.

Open Scope string_scope.
Open Scope list_scope.
Open Scope Z_scope.

(** ** Machine integers *)

Module MachineInt.

(** Two's-complement reading of the low [bits] bits of [x]. *)
Definition wrap_signed (bits x : Z) : Z :=
  (x + 2 ^ (bits - 1)) mod 2 ^ bits - 2 ^ (bits - 1).

(** [int]: 16 bits on AVR. *)
Definition INT_MIN : Z := - 2 ^ 15.
Definition INT_MAX : Z := 2 ^ 15 - 1.
Definition to_int (x : Z) : Z := wrap_signed 16 x.
Definition is_int (x : Z) : Prop := INT_MIN <= x <= INT_MAX.

(** [long]: 32 bits. *)
Definition to_long (x : Z) : Z := wrap_signed 32 x.

(** [unsigned long]: 32 bits, arithmetic modulo 2^32. *)
Definition ULONG_MODULUS : Z := 2 ^ 32.
Definition to_ulong (x : Z) : Z := x mod ULONG_MODULUS.

End MachineInt.
Import MachineInt.

(** ** The Arduino String operations used by the sketch *)

Module WString.

Definition code (c : ascii) : Z := Z.of_nat (nat_of_ascii c).

(** [isspace] of the C locale: space, and \t \n \v \f \r (9 to 13). *)
Definition isspace (c : ascii) : bool :=
  (code c =? 32) || ((9 <=? code c) && (code c <=? 13)).

Definition isdigit (c : ascii) : bool :=
  (48 <=? code c) && (code c <=? 57).

Definition isupper (c : ascii) : bool :=
  (65 <=? code c) && (code c <=? 90).

Definition tolower (c : ascii) : ascii :=
  if isupper c then ascii_of_nat (nat_of_ascii c + 32) else c.

Definition NUL : ascii := "000"%char.
Definition space : ascii := " "%char.
Definition newline : ascii := "010"%char.

Definition len (s : string) : Z := Z.of_nat (String.length s).

(** [s += c]. *)
Definition concat_char (s : string) (c : ascii) : string :=
  (s ++ String c "")%string.

(** [trim]: [begin] advances over leading white space, [end] retreats over
    trailing white space (never below [begin]), the characters between
    them are kept. *)
Fixpoint trim_begin (s : string) : string :=
  match s with
  | "" => ""
  | String c r => if isspace c then trim_begin r else s
  end.

Fixpoint trim_end (s : string) : string :=
  match s with
  | "" => ""
  | String c r =>
      match trim_end r with
      | "" => if isspace c then "" else String c ""
      | r' => String c r'
      end
  end.

Definition trim (s : string) : string := trim_end (trim_begin s).

(** [indexOf(ch)] is [strchr] on the character buffer: the index of the
    first [ch], or -1; the scan ends at a NUL byte. *)
Fixpoint indexOf_from (ch : ascii) (s : string) (i : Z) : Z :=
  match s with
  | "" => -1
  | String c r =>
      if Ascii.eqb c ch then i
      else if Ascii.eqb c NUL then -1
      else indexOf_from ch r (i + 1)
  end.

Definition indexOf (s : string) (ch : ascii) : Z := indexOf_from ch s 0.

(** The result of assigning a character pointer to a String: the bytes up
    to the first NUL. *)
Fixpoint c_str (s : string) : string :=
  match s with
  | "" => ""
  | String c r => if Ascii.eqb c NUL then "" else String c (c_str r)
  end.

(** [substring(left, right)]: the characters at indices [left] to
    [right - 1]; the bounds are swapped when out of order, [right] is cut
    at the length, and a [left] at or past the end gives the empty
    string. *)
Definition substring (s : string) (left_ right_ : Z) : string :=
  let '(left_, right_) :=
    if right_ <? left_ then (right_, left_) else (left_, right_) in
  if len s <=? left_ then ""
  else
    let right_ := if len s <? right_ then len s else right_ in
    c_str (String.substring (Z.to_nat left_) (Z.to_nat (right_ - left_)) s).

(** [substring(left)] is [substring(left, len)]. *)
Definition substring_from (s : string) (left_ : Z) : string :=
  substring s left_ (len s).

(** [toInt] is [atol]: leading white space is skipped, one optional sign
    is read, then decimal digits are accumulated in a [long] until the
    first character that is not a digit. No digit at all gives 0. *)
Fixpoint skip_space (s : string) : string :=
  match s with
  | "" => ""
  | String c r => if isspace c then skip_space r else s
  end.

Fixpoint digits (acc : Z) (s : string) : Z :=
  match s with
  | "" => acc
  | String c r =>
      if isdigit c then digits (to_long (acc * 10 + (code c - 48))) r
      else acc
  end.

Definition atol (s : string) : Z :=
  match skip_space s with
  | String "-" r => to_long (- digits 0 r)
  | String "+" r => digits 0 r
  | r => digits 0 r
  end.

Definition toInt (s : string) : Z := atol s.

(** [equalsIgnoreCase]: same length, and the same characters once each
    is passed through [tolower]. *)
Fixpoint equalsIgnoreCase (s1 s2 : string) : bool :=
  match s1, s2 with
  | "", "" => true
  | String c1 r1, String c2 r2 =>
      Ascii.eqb (tolower c1) (tolower c2) && equalsIgnoreCase r1 r2
  | _, _ => false
  end.

End WString.
Import WString.

(** ** The sketch *)

Module Nova.

(** *** Configuration *)

Definition PIN_EYE : Z := 4.
Definition PIN_JAW : Z := 5.
Definition PIN_NECK : Z := 6.
Definition PIN_Z : Z := 7.

Definition INIT_NECK : Z := 80.
Definition INIT_JAW : Z := 30.
Definition INIT_EYE : Z := 80.
Definition INIT_Z : Z := 130.

Definition MIN_ANGLE : Z := 0.
Definition MAX_ANGLE : Z := 180.

Definition JAW_UPDATE_DELAY_MS : Z := 6.

Definition BAUD_RATE : Z := 9600.

(** *** Devices and their observable calls *)

Inductive Servo : Type := servoNeck | servoJaw | servoEye | servoZ.

Inductive Event : Type :=
| ServoAttach (sv : Servo) (pin : Z)
| ServoWrite (sv : Servo) (angle : Z)
| SerialPrintln (line : string)
| DigitalWrite (pin : Z) (high : bool)
| Delay (ms : Z)
| SerialBegin (baud : Z)
| PinModeOutput (pin : Z).

(** *** Globals *)

Record State : Type := mkState {
  currentJawAngle : Z;
  targetJawAngle : Z;
  lastJawUpdateTime : Z;
  inputString : string;
  stringComplete : bool
}.

Definition set_currentJawAngle (s : State) (v : Z) : State :=
  mkState v (targetJawAngle s) (lastJawUpdateTime s)
          (inputString s) (stringComplete s).

Definition set_targetJawAngle (s : State) (v : Z) : State :=
  mkState (currentJawAngle s) v (lastJawUpdateTime s)
          (inputString s) (stringComplete s).

Definition set_lastJawUpdateTime (s : State) (v : Z) : State :=
  mkState (currentJawAngle s) (targetJawAngle s) v
          (inputString s) (stringComplete s).

Definition set_inputString (s : State) (v : string) : State :=
  mkState (currentJawAngle s) (targetJawAngle s) (lastJawUpdateTime s)
          v (stringComplete s).

Definition set_stringComplete (s : State) (v : bool) : State :=
  mkState (currentJawAngle s) (targetJawAngle s) (lastJawUpdateTime s)
          (inputString s) v.

(** The values of the globals when [setup] starts. *)
Definition initial : State :=
  mkState INIT_JAW INIT_JAW 0 "" false.

(** *** [constrain(amt, low, high)] *)

Definition constrain (amt low high : Z) : Z :=
  if amt <? low then low else if high <? amt then high else amt.

(** *** [setup]

    The calls, in order. ([inputString.reserve(200)] only sizes the buffer
    ahead of time; it has no counterpart here.) *)

Definition setup (s : State) : State * list Event :=
  (s,
   [ SerialBegin BAUD_RATE;
     ServoAttach servoNeck PIN_NECK;
     ServoAttach servoJaw PIN_JAW;
     ServoAttach servoEye PIN_EYE;
     ServoAttach servoZ PIN_Z;
     ServoWrite servoNeck INIT_NECK;
     ServoWrite servoJaw INIT_JAW;
     ServoWrite servoEye INIT_EYE;
     ServoWrite servoZ INIT_Z;
     PinModeOutput 13;
     DigitalWrite 13 true;
     Delay 500;
     DigitalWrite 13 false ]).

(** *** [processCommand] *)

Definition processCommand (command : string) (s : State)
  : State * list Event :=
  let command := trim command in
  let spaceIndex := indexOf command space in
  if spaceIndex =? -1 then (s, [])
  else
    let cmdType := substring command 0 spaceIndex in
    let angle := to_int (toInt (substring_from command (spaceIndex + 1))) in
    let angle := constrain angle MIN_ANGLE MAX_ANGLE in
    if equalsIgnoreCase cmdType "neck" then
      (s, [ServoWrite servoNeck angle])
    else if equalsIgnoreCase cmdType "jaw" then
      (set_targetJawAngle s angle, [])
    else if equalsIgnoreCase cmdType "eye" then
      (s, [ServoWrite servoEye angle])
    else if equalsIgnoreCase cmdType "z" then
      (s, [ServoWrite servoZ angle])
    else (s, []).

(** *** [loop]

    [currentTime] is the value [millis()] returns in this iteration. *)

Definition smoothJawMovement (currentTime : Z) (s : State)
  : State * list Event :=
  if JAW_UPDATE_DELAY_MS <=? to_ulong (currentTime - lastJawUpdateTime s) then
    let s := set_lastJawUpdateTime s currentTime in
    if currentJawAngle s <? targetJawAngle s then
      let s := set_currentJawAngle s (to_int (currentJawAngle s + 1)) in
      (s, [ServoWrite servoJaw (currentJawAngle s)])
    else if targetJawAngle s <? currentJawAngle s then
      let s := set_currentJawAngle s (to_int (currentJawAngle s - 1)) in
      (s, [ServoWrite servoJaw (currentJawAngle s)])
    else (s, [])
  else (s, []).

Definition serialCommandProcessing (s : State) : State * list Event :=
  if stringComplete s then
    let '(s, ev) := processCommand (inputString s) s in
    let s := set_inputString s "" in
    let s := set_stringComplete s false in
    (s, ev ++ [SerialPrintln "K"])
  else (s, []).

Definition loop (currentTime : Z) (s : State) : State * list Event :=
  let '(s, ev1) := smoothJawMovement currentTime s in
  let '(s, ev2) := serialCommandProcessing s in
  (s, ev1 ++ ev2).

(** *** [serialEvent]

    [available] holds the bytes the call finds in the receive buffer, in
    the order [Serial.read] returns them. *)

Fixpoint serialEvent (available : string) (s : State) : State :=
  match available with
  | "" => s
  | String inChar rest =>
      let s :=
        if negb (Ascii.eqb inChar newline) then
          set_inputString s (concat_char (inputString s) inChar)
        else set_stringComplete s true in
      serialEvent rest s
  end.

(** *** The run of the board

    After [setup], the core calls [loop] for ever, and [serialEvent]
    between two iterations when bytes are waiting. [Loop T] is an iteration
    that starts [T] milliseconds after power-up; its [millis()] is [T]
    reduced to an [unsigned long]. *)

Inductive Input : Type :=
| Loop (T : Z)
| SerialEvent (available : string).

Definition millis (T : Z) : Z := to_ulong T.

Definition step (i : Input) (s : State) : State * list Event :=
  match i with
  | Loop T => loop (millis T) s
  | SerialEvent available => (serialEvent available s, [])
  end.

Fixpoint run (inputs : list Input) (s : State) : State * list Event :=
  match inputs with
  | [] => (s, [])
  | i :: rest =>
      let '(s1, ev1) := step i s in
      let '(s2, ev2) := run rest s1 in
      (s2, ev1 ++ ev2)
  end.

(** The board from power-up: [setup], then the inputs. *)
Definition boot (inputs : list Input) : State * list Event :=
  let '(s0, ev0) := setup initial in
  let '(s1, ev1) := run inputs s0 in
  (s1, ev0 ++ ev1).

End Nova.
Import Nova.

Example scenario_eye_999 :
snd (run [SerialEvent ("eye 999" ++ String newline ""); Loop 501] initial)
= [ServoWrite servoEye 180; SerialPrintln "K"].
Proof. vm_compute. reflexivity. Qed.

(** ** Vocabulary of the statements *)

(** The channel token of a command line: what [processCommand] binds to
    [cmdType], when the trimmed line has a space. *)
Definition channelToken (command : string) : option string :=
  let command := trim command in
  let spaceIndex := indexOf command space in
  if spaceIndex =? -1 then None else Some (substring command 0 spaceIndex).

(** The integer [processCommand] reads after the first space, as an [int]. *)
Definition parsedAngle (command : string) : Z :=
  let command := trim command in
  to_int (toInt (substring_from command (indexOf command space + 1))).

(** The angle after the safety constraint. *)
Definition clampedAngle (command : string) : Z :=
  constrain (parsedAngle command) MIN_ANGLE MAX_ANGLE.

Definition in_range (a : Z) : Prop := 0 <= a <= 180.

(** The angles written to servo [sv], in order. *)
Fixpoint writesTo (sv : Servo) (evs : list Event) : list Z :=
  match evs with
  | [] => []
  | ServoWrite sv' a :: rest =>
      match sv, sv' with
      | servoNeck, servoNeck | servoJaw, servoJaw
      | servoEye, servoEye | servoZ, servoZ => a :: writesTo sv rest
      | _, _ => writesTo sv rest
      end
  | _ :: rest => writesTo sv rest
  end.

(** All the servo writes, with their servo. *)
Fixpoint servoWrites (evs : list Event) : list (Servo * Z) :=
  match evs with
  | [] => []
  | ServoWrite sv a :: rest => (sv, a) :: servoWrites rest
  | _ :: rest => servoWrites rest
  end.

(** The lines printed on the serial port. *)
Fixpoint printed (evs : list Event) : list string :=
  match evs with
  | [] => []
  | SerialPrintln l :: rest => l :: printed rest
  | _ :: rest => printed rest
  end.

(** A string with each character passed through [tolower]. *)
Fixpoint lower (s : string) : string :=
  match s with
  | "" => ""
  | String c r => String (tolower c) (lower r)
  end.

(** Every servo write of a log carries an angle within the safety limits. *)
Definition writes_in_range (evs : list Event) : Prop :=
  forall sv a, In (ServoWrite sv a) evs -> in_range a.

(** The test of line 86: has the quantum elapsed since the last step? *)
Definition elapsed (currentTime : Z) (s : State) : bool :=
  JAW_UPDATE_DELAY_MS <=? to_ulong (currentTime - lastJawUpdateTime s).

(** Every iteration of [times] finds the quantum elapsed: the first since
    the timestamp [last], each later one since the iteration before it (which
    refreshed the timestamp). *)
Fixpoint all_elapsed (last : Z) (times : list Z) : Prop :=
  match times with
  | [] => True
  | T :: rest =>
      JAW_UPDATE_DELAY_MS <= to_ulong (millis T - last) /\
      all_elapsed (millis T) rest
  end.

(** The clock values [T] of the [Loop T] inputs, in order. *)
Fixpoint loopTimes (inputs : list Input) : list Z :=
  match inputs with
  | [] => []
  | Loop T :: rest => T :: loopTimes rest
  | SerialEvent _ :: rest => loopTimes rest
  end.

(** The clock values of the iterations that wrote to the jaw servo. *)
Fixpoint jawWriteTimes (inputs : list Input) (s : State) : list Z :=
  match inputs with
  | [] => []
  | i :: rest =>
      match i, writesTo servoJaw (snd (step i s)) with
      | Loop T, _ :: _ => T :: jawWriteTimes rest (fst (step i s))
      | _, _ => jawWriteTimes rest (fst (step i s))
      end
  end.

(** Time does not run backwards: each value at least [lo] and at least the
    one before it. *)
Fixpoint monotone (lo : Z) (l : list Z) : Prop :=
  match l with
  | [] => True
  | T :: rest => lo <= T /\ monotone T rest
  end.

(** Neighbours of the list are at least [q] apart. *)
Fixpoint spaced (q : Z) (l : list Z) : Prop :=
  match l with
  | [] => True
  | a :: rest =>
      match rest with
      | [] => True
      | b :: _ => a + q <= b
      end /\ spaced q rest
  end.

(** Whether the character occurs in the string. *)
Fixpoint contains (ch : ascii) (s : string) : bool :=
  match s with
  | "" => false
  | String c r => Ascii.eqb c ch || contains ch r
  end.

(** A line as the host sends it: its bytes, then the terminator. *)
Definition line (l : string) : string := (l ++ String newline "")%string.

(** The number of line terminators among the bytes the run receives. *)
Fixpoint terminators (bytes : string) : nat :=
  match bytes with
  | "" => 0%nat
  | String c r => ((if Ascii.eqb c newline then 1 else 0) + terminators r)%nat
  end.

Fixpoint receivedLines (inputs : list Input) : nat :=
  match inputs with
  | [] => 0%nat
  | Loop _ :: rest => receivedLines rest
  | SerialEvent available :: rest =>
      (terminators available + receivedLines rest)%nat
  end.

(** A session in which every line is read by one [serialEvent] of its own
    and dispatched by the iteration that follows, at the given time. *)
Fixpoint session (ls : list (string * Z)) : list Input :=
  match ls with
  | [] => []
  | (l, T) :: rest => SerialEvent (line l) :: Loop T :: session rest
  end.

(** Both jaw angles within the safety limits. *)
Definition jaw_in_range (s : State) : Prop :=
  in_range (currentJawAngle s) /\ in_range (targetJawAngle s).

(** ** Further vocabulary *)

(** [Serial.print(n)] for an [int]: a minus sign for a negative value, then
    the decimal digits, "0" for zero. *)
Definition decimal (n : Z) : string :=
  if n <? 0 then
    String "-" (DecimalString.NilEmpty.string_of_uint (Nat.to_uint (Z.to_nat (- n))))
  else DecimalString.NilEmpty.string_of_uint (Nat.to_uint (Z.to_nat n)).

(** Every character of the string passes the test. *)
Fixpoint all (p : ascii -> bool) (s : string) : bool :=
  match s with
  | "" => true
  | String c r => p c && all p r
  end.

(** A character that is neither white space nor NUL. *)
Definition plain (c : ascii) : bool :=
  negb (isspace c) && negb (Ascii.eqb c NUL).

(** The string is empty or starts with a character that is not a digit. *)
Definition stops_number (tail : string) : bool :=
  match tail with
  | "" => true
  | String c _ => negb (isdigit c)
  end.

(** The string is empty or ends with a character that is not white space. *)
Definition ends_plain (s : string) : Prop := trim_end s = s.

(** The bytes with the line terminators taken out. *)
Fixpoint withoutNewlines (bytes : string) : string :=
  match bytes with
  | "" => ""
  | String c r =>
      if Ascii.eqb c newline then withoutNewlines r
      else String c (withoutNewlines r)
  end.

(** All the bytes the serial events of a run read, in order. *)
Fixpoint received (inputs : list Input) : string :=
  match inputs with
  | [] => ""
  | Loop _ :: rest => received rest
  | SerialEvent available :: rest => (available ++ received rest)%string
  end.

(** The strings [loop] hands to [processCommand], in order: the buffer, at
    each iteration that finds the flag raised. *)
Fixpoint dispatched (inputs : list Input) (s : State) : list string :=
  match inputs with
  | [] => []
  | i :: rest =>
      match i with
      | Loop _ => if stringComplete s then [inputString s] else []
      | SerialEvent _ => []
      end ++ dispatched rest (fst (step i s))
  end.

(** The completed lines of a byte stream: the text between terminators,
    [cur] being what precedes the first byte; an unterminated rest is not a
    line. *)
Fixpoint linesFrom (cur : string) (text : string) : list string :=
  match text with
  | "" => []
  | String c r =>
      if Ascii.eqb c newline then cur :: linesFrom "" r
      else linesFrom (concat_char cur c) r
  end.

(** A drain holds at most one terminator, and then as its last byte. *)
Fixpoint oneLineAtMost (bytes : string) : bool :=
  match bytes with
  | "" => true
  | String c r =>
      if Ascii.eqb c newline then
        match r with "" => true | _ => false end
      else oneLineAtMost r
  end.

(** A paced run: no byte is read while a completed line waits for its
    dispatch ([ready]), and no drain reads past a terminator. *)
Fixpoint paced (ready : bool) (inputs : list Input) : bool :=
  match inputs with
  | [] => true
  | Loop _ :: rest => paced false rest
  | SerialEvent available :: rest =>
      negb ready && oneLineAtMost available
      && paced (contains newline available) rest
  end.

(** No serial event of the run reads a terminator. *)
Fixpoint unterminated (inputs : list Input) : bool :=
  match inputs with
  | [] => true
  | Loop _ :: rest => unterminated rest
  | SerialEvent available :: rest =>
      negb (contains newline available) && unterminated rest
  end.

(** Each value is one away from the one before it, [prev] coming first. *)
Fixpoint oneDegreeSteps (prev : Z) (l : list Z) : Prop :=
  match l with
  | [] => True
  | a :: rest => Z.abs (a - prev) = 1 /\ oneDegreeSteps a rest
  end.

(** An argument that holds no number where [toInt] looks: empty, or
    starting with a character that is neither white space, a sign nor a
    digit, or with a sign that no digit follows. *)
Definition no_number (arg : string) : bool :=
  match arg with
  | "" => true
  | String c r =>
      if Ascii.eqb c "-" || Ascii.eqb c "+" then stops_number r
      else negb (isdigit c) && negb (isspace c)
  end.

(** The servo writes a dispatch of [command] emits (they do not depend on
    the state). *)
Definition commandWrites (command : string) : list (Servo * Z) :=
  servoWrites (snd (processCommand command initial)).

(** The servo writes other than the jaw's. *)
Fixpoint directWrites (evs : list Event) : list (Servo * Z) :=
  match evs with
  | [] => []
  | ServoWrite servoJaw _ :: rest => directWrites rest
  | ServoWrite sv a :: rest => (sv, a) :: directWrites rest
  | _ :: rest => directWrites rest
  end.

(** ** The calibration sketch

    The companion sketch that wiggles each pin in turn and asks the operator
    what moved. All of it is [setup]; it reads six lines from the serial
    port and blocks until each arrives. *)

Module Calibration.

Definition PINS : list Z := [4; 5; 6; 7; 8].
Definition NUM_PINS : Z := 5.

(** The calls on the serial port and on the one [Servo] object, [tester]. *)
Inductive Event : Type :=
| SerialBegin (baud : Z)
| Print (text : string)
| Println (text : string)
| Attach (pin : Z)
| Write (angle : Z)
| Detach
| Delay (ms : Z).

(** An element of [pinNames]: a [String] that holds what it was last
    assigned, or nothing yet. [String::operator=] gives the left-hand side
    the length of the right-hand side and copies the characters with
    [strcpy], so those before the first NUL arrive and the rest of the
    buffer is whatever the memory held. The record keeps what the assignment
    determines: the length, and the characters up to the first NUL. *)
Record StoredName : Type := mkStoredName {
  storedLen : Z;
  storedChars : string
}.

(** A [String] constructed without a value. *)
Definition unnamed : StoredName := mkStoredName 0 "".

(** [lhs = rhs]. *)
Definition assign (rhs : string) : StoredName :=
  mkStoredName (len rhs) (c_str rhs).

(** The globals: the names given to the pins, and the range of the test
    movement. *)
Record State : Type := mkState {
  pinNames : list StoredName;
  minAngle : Z;
  maxAngle : Z
}.

Definition initial : State :=
  mkState [unnamed; unnamed; unnamed; unnamed; unnamed] 80 100.

(** How [setup] ends: it returns, or it sits in a
    [while (Serial.available() == 0)] because no further line arrives. *)
Inductive Outcome : Type :=
| Finished (s : State)
| Waiting (s : State).

Definition nl : string := String newline "".

(** [toLowerCase]: each character up to the first NUL through [tolower]. *)
Fixpoint toLowerCase (s : string) : string :=
  match s with
  | "" => ""
  | String c r =>
      if Ascii.eqb c NUL then s else String (tolower c) (toLowerCase r)
  end.

(** [s == "literal"]: an empty [String] equals the empty literal only;
    otherwise [strcmp] on the character buffer. *)
Definition equals (s : StoredName) (literal : string) : bool :=
  if storedLen s =? 0 then String.eqb literal ""
  else String.eqb (storedChars s) literal.

(** [pinNames[i] = ...]: the element at index [i] replaced. *)
Fixpoint store (i : nat) (name : StoredName) (names : list StoredName)
  : list StoredName :=
  match names, i with
  | [], _ => []
  | _ :: rest, O => name :: rest
  | n :: rest, S i' => n :: store i' name rest
  end.

(** Lines 36 to 52: the banner, the pins, the first prompt. *)
Fixpoint printPins (pins : list Z) (i : Z) : list Event :=
  match pins with
  | [] => []
  | pin :: rest =>
      Print (decimal pin)
      :: (if i <? NUM_PINS - 1 then [Print ", "] else [])
      ++ printPins rest (i + 1)
  end.

Definition greeting : list Event :=
  [ SerialBegin 9600;
    Println (nl ++ nl ++ "=========================================");
    Println "      NOVA ANIMATRONIC CALIBRATION       ";
    Println "=========================================";
    Println "This tool will help you map your pins.";
    Print "Checking pins: " ]
  ++ printPins PINS 0
  ++ [ Println nl;
       Println "STEP 1: SAFETY CONFIGURATION";
       Println "Default safe movement range is 80 to 100 degrees.";
       Println "This range is generally safe for all Nova parts.";
       Println "-> Send 's' to START with default range.";
       Println "-> Or send 'min max' (e.g., '30 60') to specify custom range." ].

(** Lines 55 to 70: the range, from the first line read. *)
Definition configureRange (line : string) (s : State) : State * list Event :=
  let input := trim line in
  let '(s, ev) :=
    if (1 <? len input) && (0 <? indexOf input space) then
      let spaceIdx := indexOf input space in
      let s := mkState (pinNames s)
                       (to_int (toInt (substring input 0 spaceIdx)))
                       (maxAngle s) in
      let s := mkState (pinNames s) (minAngle s)
                       (to_int (toInt (substring_from input (spaceIdx + 1)))) in
      (s, [Print "âœ… Custom range set: "])
    else (s, [Print "âœ… Default range used: "]) in
  (s, ev ++ [Print (decimal (minAngle s)); Print " - ";
             Println (decimal (maxAngle s)); Delay 1000]).

(** Lines 87 to 94: the wiggle, then the centre of the range. Integer
    division truncates. *)
Definition wiggle (s : State) : list Event :=
  List.concat (repeat [Write (minAngle s); Delay 400; Write (maxAngle s); Delay 400] 3)
  ++ [Write (Z.quot (to_int (minAngle s + maxAngle s)) 2)].

(** Lines 78 to 113: one pin after the other, each answer read from the
    next line. *)
Fixpoint identify (pins : list Z) (i : nat) (lines : list string) (s : State)
  : Outcome * list Event :=
  match pins with
  | [] => (Finished s, [])
  | currentPin :: rest =>
      let moved :=
        [Print (nl ++ "ðŸ‘‰ Testing PIN "); Print (decimal currentPin); Println "...";
         Attach currentPin]
        ++ wiggle s
        ++ [Print "   Pin "; Print (decimal currentPin);
            Println " moved. What is it? (neck/jaw/eye/z/none)"] in
      match lines with
      | [] => (Waiting s, moved)
      | line :: lines' =>
          let name := toLowerCase (trim line) in
          let s := mkState (store i (assign name) (pinNames s))
                           (minAngle s) (maxAngle s) in
          let saved :=
            [Print "   Saved: Pin "; Print (decimal currentPin); Print " = ";
             Println name; Detach; Delay 500] in
          let '(outcome, later) := identify rest (S i) lines' s in
          (outcome, moved ++ saved ++ later)
      end
  end.

(** Lines 122 to 137: the report. *)
Definition varNameOf (name : StoredName) : string :=
  if equals name "neck" then "PIN_NECK"
  else if equals name "jaw" then "PIN_JAW"
  else if equals name "eye" then "PIN_EYE"
  else if equals name "z" then "PIN_Z"
  else if equals name "eye z" then "PIN_Z"
  else "PIN_UNKNOWN".

Fixpoint report (pins : list Z) (names : list StoredName) : list Event :=
  match pins, names with
  | pin :: pins', name :: names' =>
      (if negb (equals name "none") && negb (equals name "") then
         [Print "const int "; Print (varNameOf name); Print " = ";
          Print (decimal pin); Println ";"]
       else [])
      ++ report pins' names'
  | _, _ => []
  end.

(** The fixed texts of lines 73 to 76, 116 to 120 and 138 to 139. *)
Definition identificationBanner : list Event :=
  [ Println (nl ++ "STEP 2: IDENTIFICATION");
    Println "I will now move each pin. Watch the robot!";
    Println "Enter the name: 'neck', 'jaw', 'eye', 'z' (for tilt), or 'none'.";
    Println "-----------------------------------------" ].

Definition reportBanner : list Event :=
  [ Println (nl ++ nl ++ "=========================================");
    Println "           CALIBRATION COMPLETE          ";
    Println "=========================================";
    Println "Copy the lines below into your main 'nova_arduino.ino' file:";
    Println "-----------------------------------------" ].

Definition closing : list Event :=
  [ Println "-----------------------------------------";
    Println "Done!" ].

(** [setup], given the lines [Serial.readStringUntil] returns, in order. *)
Definition setup (lines : list string) : Outcome * list Event :=
  match lines with
  | [] => (Waiting initial, greeting)
  | first :: answers =>
      let '(s, ranged) := configureRange first initial in
      match identify PINS 0 answers s with
      | (Waiting s, tested) =>
          (Waiting s, greeting ++ ranged ++ identificationBanner ++ tested)
      | (Finished s, tested) =>
          (Finished s,
           greeting ++ ranged ++ identificationBanner ++ tested
           ++ reportBanner ++ report PINS (pinNames s) ++ closing)
      end
  end.

End Calibration.

(** *** Vocabulary for the calibration sketch *)

Module CalibrationTrace.
Import Calibration.

Definition stateOf (o : Outcome) : State :=
  match o with Finished s => s | Waiting s => s end.

Definition finished (o : Outcome) : bool :=
  match o with Finished _ => true | Waiting _ => false end.

(** The angles written to the servo under test, in order. *)
Fixpoint writes (evs : list Event) : list Z :=
  match evs with
  | [] => []
  | Write a :: rest => a :: writes rest
  | _ :: rest => writes rest
  end.

(** The pins attached, in order. *)
Fixpoint attaches (evs : list Event) : list Z :=
  match evs with
  | [] => []
  | Attach p :: rest => p :: attaches rest
  | _ :: rest => attaches rest
  end.

(** The servo object is attached to a pin only when it is attached to
    none, and written and detached only while attached. *)
Fixpoint disciplined (attached : bool) (evs : list Event) : bool :=
  match evs with
  | [] => true
  | Attach _ :: rest => negb attached && disciplined true rest
  | Write _ :: rest => attached && disciplined attached rest
  | Detach :: rest => attached && disciplined false rest
  | _ :: rest => disciplined attached rest
  end.

(** Whether the servo object is attached after the events. *)
Fixpoint attachedAfter (attached : bool) (evs : list Event) : bool :=
  match evs with
  | [] => attached
  | Attach _ :: rest => attachedAfter true rest
  | Detach :: rest => attachedAfter false rest
  | _ :: rest => attachedAfter attached rest
  end.

(** Events that leave the servo object alone. *)
Definition serialOnly (e : Event) : bool :=
  match e with
  | Attach _ | Write _ | Detach => false
  | _ => true
  end.

(** The angles of one test movement: three times to and fro, then the
    centre. *)
Definition movement (s : State) : list Z :=
  [minAngle s; maxAngle s; minAngle s; maxAngle s; minAngle s; maxAngle s;
   Z.quot (to_int (minAngle s + maxAngle s)) 2].

(** An answer as the sketch prepares it: trimmed, then lower-cased. *)
Definition normalised (answer : string) : string := toLowerCase (trim answer).

(** What [pinNames] holds for an answer. *)
Definition stored (answer : string) : StoredName := assign (normalised answer).

End CalibrationTrace.

(** ** Machine integers: basic facts *)

Lemma to_int_small (x : Z) : is_int x -> to_int x = x.
Proof.
  unfold is_int, INT_MIN, INT_MAX, to_int, wrap_signed. intros H.
  change (2 ^ (16 - 1)) with 32768. change (2 ^ 16) with 65536.
  change (2 ^ 15) with 32768 in H.
  rewrite Z.mod_small; lia.
Qed.

Lemma in_range_is_int (a : Z) : in_range a -> is_int a.
Proof.
  unfold in_range, is_int, INT_MIN, INT_MAX.
  change (2 ^ 15) with 32768. lia.
Qed.

Lemma constrain_in_range (a : Z) : in_range (constrain a MIN_ANGLE MAX_ANGLE).
Proof.
  unfold constrain, in_range, MIN_ANGLE, MAX_ANGLE.
  destruct (a <? 0) eqn:Hlo; [lia|].
  destruct (180 <? a) eqn:Hhi; [lia|].
  apply Z.ltb_ge in Hlo, Hhi. lia.
Qed.

Lemma constrain_fixes_range (a : Z) :
  in_range a -> constrain a MIN_ANGLE MAX_ANGLE = a.
Proof.
  unfold constrain, in_range, MIN_ANGLE, MAX_ANGLE. intros H.
  destruct (a <? 0) eqn:Hlo; [apply Z.ltb_lt in Hlo; lia|].
  destruct (180 <? a) eqn:Hhi; [apply Z.ltb_lt in Hhi; lia|]. reflexivity.
Qed.

(** ** [processCommand], case by case *)

Lemma processCommand_cases (command : string) (s : State) :
  processCommand command s =
  match channelToken command with
  | None => (s, [])
  | Some cmdType =>
      if equalsIgnoreCase cmdType "neck" then
        (s, [ServoWrite servoNeck (clampedAngle command)])
      else if equalsIgnoreCase cmdType "jaw" then
        (set_targetJawAngle s (clampedAngle command), [])
      else if equalsIgnoreCase cmdType "eye" then
        (s, [ServoWrite servoEye (clampedAngle command)])
      else if equalsIgnoreCase cmdType "z" then
        (s, [ServoWrite servoZ (clampedAngle command)])
      else (s, [])
  end.
Proof.
  unfold processCommand, channelToken, clampedAngle, parsedAngle.
  destruct (indexOf (trim command) space =? -1); reflexivity.
Qed.

Lemma equalsIgnoreCase_lower (s1 s2 : string) :
  equalsIgnoreCase s1 s2 = true <-> lower s1 = lower s2.
Proof.
  revert s2. induction s1 as [|c1 r1 IH]; intros [|c2 r2]; simpl;
    try (split; [discriminate | discriminate]); [tauto|].
  rewrite andb_true_iff, Ascii.eqb_eq, IH. split.
  - intros [-> ->]. reflexivity.
  - intros H. injection H as -> ->. auto.
Qed.

(** [equalsIgnoreCase] compares the lower-cased strings; so a token matches
    at most one of the four channel names. *)
Lemma channel_names_exclusive (tok a b : string) :
  equalsIgnoreCase tok a = true -> lower a <> lower b ->
  equalsIgnoreCase tok b = false.
Proof.
  intros Ha Hab. destruct (equalsIgnoreCase tok b) eqn:Hb; [|reflexivity].
  apply equalsIgnoreCase_lower in Ha, Hb. congruence.
Qed.

Ltac other_channel H :=
  rewrite (channel_names_exclusive _ _ _ H) by (vm_compute; discriminate).

Lemma processCommand_neck command s tok :
  channelToken command = Some tok -> equalsIgnoreCase tok "neck" = true ->
  processCommand command s = (s, [ServoWrite servoNeck (clampedAngle command)]).
Proof.
  intros Ht H. rewrite processCommand_cases, Ht, H. reflexivity.
Qed.

Lemma processCommand_jaw command s tok :
  channelToken command = Some tok -> equalsIgnoreCase tok "jaw" = true ->
  processCommand command s = (set_targetJawAngle s (clampedAngle command), []).
Proof.
  intros Ht H. rewrite processCommand_cases, Ht, H.
  other_channel H. reflexivity.
Qed.

Lemma processCommand_eye command s tok :
  channelToken command = Some tok -> equalsIgnoreCase tok "eye" = true ->
  processCommand command s = (s, [ServoWrite servoEye (clampedAngle command)]).
Proof.
  intros Ht H. rewrite processCommand_cases, Ht, H.
  do 2 other_channel H. reflexivity.
Qed.

Lemma processCommand_z command s tok :
  channelToken command = Some tok -> equalsIgnoreCase tok "z" = true ->
  processCommand command s = (s, [ServoWrite servoZ (clampedAngle command)]).
Proof.
  intros Ht H. rewrite processCommand_cases, Ht, H.
  do 3 other_channel H. reflexivity.
Qed.

Lemma processCommand_no_space command s :
  channelToken command = None -> processCommand command s = (s, []).
Proof. intros Ht. rewrite processCommand_cases, Ht. reflexivity. Qed.

Lemma processCommand_other command s tok :
  channelToken command = Some tok ->
  equalsIgnoreCase tok "neck" = false -> equalsIgnoreCase tok "jaw" = false ->
  equalsIgnoreCase tok "eye" = false -> equalsIgnoreCase tok "z" = false ->
  processCommand command s = (s, []).
Proof.
  intros Ht H1 H2 H3 H4. rewrite processCommand_cases, Ht, H1, H2, H3, H4.
  reflexivity.
Qed.

(** What a dispatch can do to the state: nothing, or a new target. *)
Lemma processCommand_state command s :
  fst (processCommand command s) = s \/
  fst (processCommand command s) = set_targetJawAngle s (clampedAngle command).
Proof.
  rewrite processCommand_cases.
  destruct (channelToken command) as [tok|]; [|left; reflexivity].
  destruct (equalsIgnoreCase tok "neck"); [left; reflexivity|].
  destruct (equalsIgnoreCase tok "jaw"); [right; reflexivity|].
  destruct (equalsIgnoreCase tok "eye"); [left; reflexivity|].
  destruct (equalsIgnoreCase tok "z"); left; reflexivity.
Qed.

(** What a dispatch can emit: nothing, or one write of the clamped angle to
    neck, eye or z. *)
Lemma processCommand_events command s :
  snd (processCommand command s) = [] \/
  exists sv, sv <> servoJaw /\
    snd (processCommand command s) = [ServoWrite sv (clampedAngle command)].
Proof.
  rewrite processCommand_cases.
  destruct (channelToken command) as [tok|]; [|left; reflexivity].
  destruct (equalsIgnoreCase tok "neck");
    [right; exists servoNeck; split; [discriminate|reflexivity]|].
  destruct (equalsIgnoreCase tok "jaw"); [left; reflexivity|].
  destruct (equalsIgnoreCase tok "eye");
    [right; exists servoEye; split; [discriminate|reflexivity]|].
  destruct (equalsIgnoreCase tok "z");
    [right; exists servoZ; split; [discriminate|reflexivity]|].
  left; reflexivity.
Qed.

(** ** The two halves of [loop] *)

Lemma serialCommandProcessing_eq (s : State) :
  serialCommandProcessing s =
  if stringComplete s then
    (set_stringComplete
       (set_inputString (fst (processCommand (inputString s) s)) "") false,
     snd (processCommand (inputString s) s) ++ [SerialPrintln "K"])
  else (s, []).
Proof.
  unfold serialCommandProcessing.
  destruct (stringComplete s); [|reflexivity].
  destruct (processCommand (inputString s) s); reflexivity.
Qed.

Lemma loop_eq (currentTime : Z) (s : State) :
  loop currentTime s =
  (fst (serialCommandProcessing (fst (smoothJawMovement currentTime s))),
   snd (smoothJawMovement currentTime s)
   ++ snd (serialCommandProcessing (fst (smoothJawMovement currentTime s)))).
Proof.
  unfold loop. destruct (smoothJawMovement currentTime s) as [s1 ev1].
  simpl. destruct (serialCommandProcessing s1); reflexivity.
Qed.

Lemma run_cons (i : Input) (rest : list Input) (s : State) :
  run (i :: rest) s =
  (fst (run rest (fst (step i s))), snd (step i s) ++ snd (run rest (fst (step i s)))).
Proof.
  simpl. destruct (step i s) as [s1 ev1]. simpl.
  destruct (run rest s1); reflexivity.
Qed.

Lemma run_app (xs ys : list Input) (s : State) :
  run (xs ++ ys) s =
  (fst (run ys (fst (run xs s))), snd (run xs s) ++ snd (run ys (fst (run xs s)))).
Proof.
  revert s. induction xs as [|i xs IH]; intros s.
  - simpl. destruct (run ys s); reflexivity.
  - rewrite <- app_comm_cons, !run_cons, IH. simpl. rewrite app_assoc. reflexivity.
Qed.

(** The interpolator, case by case. *)
Lemma smooth_waiting currentTime s :
  elapsed currentTime s = false -> smoothJawMovement currentTime s = (s, []).
Proof. unfold elapsed, smoothJawMovement. intros ->. reflexivity. Qed.

Lemma smooth_idle currentTime s :
  elapsed currentTime s = true -> currentJawAngle s = targetJawAngle s ->
  smoothJawMovement currentTime s = (set_lastJawUpdateTime s currentTime, []).
Proof.
  unfold elapsed, smoothJawMovement. intros -> H. simpl. rewrite H.
  rewrite Z.ltb_irrefl. reflexivity.
Qed.

Lemma smooth_up currentTime s :
  elapsed currentTime s = true -> currentJawAngle s < targetJawAngle s ->
  is_int (currentJawAngle s) -> is_int (targetJawAngle s) ->
  smoothJawMovement currentTime s =
  (set_currentJawAngle (set_lastJawUpdateTime s currentTime) (currentJawAngle s + 1),
   [ServoWrite servoJaw (currentJawAngle s + 1)]).
Proof.
  unfold elapsed, smoothJawMovement. intros -> H Hc Ht. simpl.
  apply Z.ltb_lt in H as Hb. rewrite Hb.
  rewrite to_int_small; [reflexivity|]. unfold is_int in *. lia.
Qed.

Lemma smooth_down currentTime s :
  elapsed currentTime s = true -> targetJawAngle s < currentJawAngle s ->
  is_int (currentJawAngle s) -> is_int (targetJawAngle s) ->
  smoothJawMovement currentTime s =
  (set_currentJawAngle (set_lastJawUpdateTime s currentTime) (currentJawAngle s - 1),
   [ServoWrite servoJaw (currentJawAngle s - 1)]).
Proof.
  unfold elapsed, smoothJawMovement. intros -> H Hc Ht. simpl.
  apply Z.ltb_lt in H as Hb. rewrite Hb.
  assert (Hn : (currentJawAngle s <? targetJawAngle s) = false)
    by (apply Z.ltb_ge; lia).
  rewrite Hn. rewrite to_int_small; [reflexivity|]. unfold is_int in *. lia.
Qed.

(** ** The range invariant *)

Lemma writes_in_range_nil : writes_in_range [].
Proof. intros sv a []. Qed.

Lemma writes_in_range_app evs1 evs2 :
  writes_in_range evs1 -> writes_in_range evs2 -> writes_in_range (evs1 ++ evs2).
Proof.
  intros H1 H2 sv a Hin. apply in_app_or in Hin as [Hin|Hin]; eauto.
Qed.

Lemma writes_in_range_one sv a : in_range a -> writes_in_range [ServoWrite sv a].
Proof.
  intros Ha sv' a' [Heq|[]]. injection Heq as _ <-. exact Ha.
Qed.

Lemma smooth_invariant currentTime s :
  jaw_in_range s ->
  jaw_in_range (fst (smoothJawMovement currentTime s)) /\
  writes_in_range (snd (smoothJawMovement currentTime s)).
Proof.
  intros [Hc Ht].
  pose proof (in_range_is_int _ Hc) as Hci.
  pose proof (in_range_is_int _ Ht) as Hti.
  destruct (elapsed currentTime s) eqn:He.
  - destruct (Z.lt_trichotomy (currentJawAngle s) (targetJawAngle s)) as [H|[H|H]].
    + rewrite smooth_up by assumption. simpl.
      assert (in_range (currentJawAngle s + 1)) by (unfold in_range in *; lia).
      split; [split; assumption | apply writes_in_range_one; assumption].
    + rewrite smooth_idle by assumption. simpl.
      split; [split; assumption | apply writes_in_range_nil].
    + rewrite smooth_down by assumption. simpl.
      assert (in_range (currentJawAngle s - 1)) by (unfold in_range in *; lia).
      split; [split; assumption | apply writes_in_range_one; assumption].
  - rewrite smooth_waiting by assumption. simpl.
    split; [split; assumption | apply writes_in_range_nil].
Qed.

Lemma processCommand_invariant command s :
  jaw_in_range s ->
  jaw_in_range (fst (processCommand command s)) /\
  writes_in_range (snd (processCommand command s)).
Proof.
  intros [Hc Ht]. split.
  - destruct (processCommand_state command s) as [-> | ->];
      [split; assumption|].
    split; simpl; [assumption | apply constrain_in_range].
  - destruct (processCommand_events command s) as [-> | (sv & _ & ->)].
    + apply writes_in_range_nil.
    + apply writes_in_range_one, constrain_in_range.
Qed.

Lemma serialCommandProcessing_invariant s :
  jaw_in_range s ->
  jaw_in_range (fst (serialCommandProcessing s)) /\
  writes_in_range (snd (serialCommandProcessing s)).
Proof.
  intros H. rewrite serialCommandProcessing_eq.
  destruct (stringComplete s); simpl.
  - destruct (processCommand_invariant (inputString s) s H) as [[Hc Ht] Hw].
    split; [split; assumption|].
    apply writes_in_range_app; [assumption|].
    intros sv a [Heq|[]]. discriminate Heq.
  - split; [assumption | apply writes_in_range_nil].
Qed.

Lemma loop_invariant currentTime s :
  jaw_in_range s ->
  jaw_in_range (fst (loop currentTime s)) /\
  writes_in_range (snd (loop currentTime s)).
Proof.
  intros H. rewrite loop_eq. simpl.
  destruct (smooth_invariant currentTime s H) as [H1 W1].
  destruct (serialCommandProcessing_invariant _ H1) as [H2 W2].
  split; [assumption | apply writes_in_range_app; assumption].
Qed.

(** [serialEvent] touches the buffer and the flag only. *)
Lemma serialEvent_jaw available s :
  currentJawAngle (serialEvent available s) = currentJawAngle s /\
  targetJawAngle (serialEvent available s) = targetJawAngle s /\
  lastJawUpdateTime (serialEvent available s) = lastJawUpdateTime s.
Proof.
  revert s. induction available as [|c rest IH]; intros s; simpl; [auto|].
  destruct (IH (if negb (Ascii.eqb c newline)
                then set_inputString s (concat_char (inputString s) c)
                else set_stringComplete s true)) as (-> & -> & ->).
  destruct (negb (Ascii.eqb c newline)); auto.
Qed.

Lemma step_invariant i s :
  jaw_in_range s ->
  jaw_in_range (fst (step i s)) /\ writes_in_range (snd (step i s)).
Proof.
  intros H. destruct i as [T|available]; simpl.
  - apply loop_invariant, H.
  - destruct (serialEvent_jaw available s) as (Hc & Ht & _).
    split; [|apply writes_in_range_nil].
    unfold jaw_in_range. rewrite Hc, Ht. exact H.
Qed.

Lemma run_invariant inputs : forall s,
  jaw_in_range s ->
  jaw_in_range (fst (run inputs s)) /\ writes_in_range (snd (run inputs s)).
Proof.
  induction inputs as [|i rest IH]; intros s H.
  - simpl. split; [assumption | apply writes_in_range_nil].
  - rewrite run_cons. simpl.
    destruct (step_invariant i s H) as [H1 W1].
    destruct (IH _ H1) as [H2 W2].
    split; [assumption | apply writes_in_range_app; assumption].
Qed.

Lemma initial_in_range : jaw_in_range initial.
Proof. unfold jaw_in_range, in_range, initial, INIT_JAW. simpl. lia. Qed.

Lemma boot_eq inputs :
  boot inputs =
  (fst (run inputs initial), snd (setup initial) ++ snd (run inputs initial)).
Proof.
  unfold boot. simpl. destruct (run inputs initial). reflexivity.
Qed.

Lemma setup_writes_in_range : writes_in_range (snd (setup initial)).
Proof.
  intros sv a Hin. simpl in Hin.
  unfold in_range, INIT_NECK, INIT_JAW, INIT_EYE, INIT_Z in *.
  repeat (destruct Hin as [Heq|Hin];
          [try discriminate Heq; injection Heq as _ <-; lia|]).
  destruct Hin.
Qed.

Lemma boot_writes_in_range inputs : writes_in_range (snd (boot inputs)).
Proof.
  rewrite boot_eq. apply writes_in_range_app.
  - apply setup_writes_in_range.
  - apply (run_invariant inputs initial initial_in_range).
Qed.

(** ** Clamping and the dispatcher *)

(** C1. Whatever the angle token of a command parses to, a dispatch writes
    to neck, eye or z nothing but the clamped angle, and changes the jaw
    target to nothing but the clamped angle; the clamped angle lies in
    [0, 180]; and from power-up, under any sequence of loop iterations and
    serial events, every angle written to any servo (the jaw included, which
    is written by the interpolator only) lies in [0, 180]. *)
Theorem written_angles_clamped :
  forall (command : string) (s : State) (inputs : list Input),
    (forall sv a,
        In (ServoWrite sv a) (snd (processCommand command s)) ->
        a = constrain (parsedAngle command) MIN_ANGLE MAX_ANGLE) /\
    (targetJawAngle (fst (processCommand command s)) = targetJawAngle s \/
     targetJawAngle (fst (processCommand command s))
     = constrain (parsedAngle command) MIN_ANGLE MAX_ANGLE) /\
    0 <= constrain (parsedAngle command) MIN_ANGLE MAX_ANGLE <= 180 /\
    (forall sv a, In (ServoWrite sv a) (snd (boot inputs)) -> 0 <= a <= 180).
Proof.
  intros command s inputs.
  split; [|split; [|split]].
  - intros sv a Hin.
    destruct (processCommand_events command s) as [He | (sv' & _ & He)];
      rewrite He in Hin.
    + destruct Hin.
    + destruct Hin as [Heq|[]]. injection Heq as _ <-. reflexivity.
  - destruct (processCommand_state command s) as [-> | ->];
      [left | right]; reflexivity.
  - apply constrain_in_range.
  - intros sv a. apply (boot_writes_in_range inputs).
Qed.

Lemma written_angles_clamped_witness :
  In (ServoWrite servoEye 180)
     (snd (boot [SerialEvent ("eye 999" ++ String newline ""); Loop 501]))
  /\ 0 <= 180 <= 180.
Proof.
  split.
  - vm_compute. tauto.
  - apply (written_angles_clamped "eye 999" initial
             [SerialEvent ("eye 999" ++ String newline ""); Loop 501]
             ) with (sv := servoEye).
    vm_compute. tauto.
Defined.

(** C9. The jaw angles stay within [0, 180]: both start at 30; a dispatch,
    an interpolator step, a whole loop iteration and a serial event each
    keep both within the range; hence in every state the board reaches from
    power-up both the current and the target jaw angle lie in [0, 180]. *)
Theorem jaw_angles_in_range :
  (currentJawAngle initial = 30 /\ targetJawAngle initial = 30) /\
  (forall command s, jaw_in_range s ->
                     jaw_in_range (fst (processCommand command s))) /\
  (forall currentTime s, jaw_in_range s ->
                         jaw_in_range (fst (smoothJawMovement currentTime s))) /\
  (forall i s, jaw_in_range s -> jaw_in_range (fst (step i s))) /\
  (forall inputs,
      0 <= currentJawAngle (fst (boot inputs)) <= 180 /\
      0 <= targetJawAngle (fst (boot inputs)) <= 180).
Proof.
  split; [split; reflexivity|].
  split; [intros command s H; apply (processCommand_invariant command s H)|].
  split; [intros t s H; apply (smooth_invariant t s H)|].
  split; [intros i s H; apply (step_invariant i s H)|].
  intros inputs. rewrite boot_eq. simpl fst.
  apply (run_invariant inputs initial initial_in_range).
Qed.

Lemma jaw_angles_in_range_witness :
  jaw_in_range initial /\
  jaw_in_range (fst (step (SerialEvent "jaw 999") initial)).
Proof.
  split.
  - exact initial_in_range.
  - destruct jaw_angles_in_range as (_ & _ & _ & Hstep & _).
    apply Hstep. exact initial_in_range.
Defined.

(** C6. A command whose channel token matches "jaw" without regard to case
    changes the jaw target to the clamped angle and nothing else: no event
    is emitted, and the current jaw angle, the step timestamp, the input
    buffer and the ready flag are as before. A command whose token matches
    "neck", "eye" or "z" emits exactly one write, of the clamped angle, to
    that servo, and leaves the whole state, jaw motion state included, as it
    was. *)
Theorem dispatch_frame :
  forall (command : string) (s : State) (tok : string),
    channelToken command = Some tok ->
    (equalsIgnoreCase tok "jaw" = true ->
     processCommand command s =
     (mkState (currentJawAngle s) (clampedAngle command)
              (lastJawUpdateTime s) (inputString s) (stringComplete s), [])) /\
    (equalsIgnoreCase tok "neck" = true ->
     processCommand command s = (s, [ServoWrite servoNeck (clampedAngle command)])) /\
    (equalsIgnoreCase tok "eye" = true ->
     processCommand command s = (s, [ServoWrite servoEye (clampedAngle command)])) /\
    (equalsIgnoreCase tok "z" = true ->
     processCommand command s = (s, [ServoWrite servoZ (clampedAngle command)])).
Proof.
  intros command s tok Ht. repeat split; intros H.
  - rewrite (processCommand_jaw command s tok Ht H). reflexivity.
  - apply (processCommand_neck command s tok Ht H).
  - apply (processCommand_eye command s tok Ht H).
  - apply (processCommand_z command s tok Ht H).
Qed.

Lemma dispatch_frame_witness :
  channelToken "JAW 60" = Some "JAW" /\
  equalsIgnoreCase "JAW" "jaw" = true /\
  processCommand "JAW 60" initial = (mkState 30 60 0 "" false, []).
Proof.
  split; [reflexivity|]. split; [reflexivity|].
  destruct (dispatch_frame "JAW 60" initial "JAW" eq_refl) as (Hjaw & _).
  rewrite (Hjaw eq_refl). reflexivity.
Defined.

(** C8. A command whose channel token matches none of "neck", "jaw", "eye",
    "z" (compared without regard to case) leaves the state as it was and
    emits nothing: no servo write on any channel, no change of the jaw
    motion state, nothing printed. *)
Theorem unknown_channel_ignored :
  forall (command : string) (s : State) (tok : string),
    channelToken command = Some tok ->
    equalsIgnoreCase tok "neck" = false ->
    equalsIgnoreCase tok "jaw" = false ->
    equalsIgnoreCase tok "eye" = false ->
    equalsIgnoreCase tok "z" = false ->
    processCommand command s = (s, []).
Proof.
  intros command s tok Ht Hneck Hjaw Heye Hz.
  rewrite processCommand_cases, Ht.
  rewrite Hneck, Hjaw, Heye, Hz. reflexivity.
Qed.

Lemma unknown_channel_ignored_witness :
  channelToken "foot 50" = Some "foot" /\
  processCommand "foot 50" initial = (initial, []).
Proof.
  split; [reflexivity|].
  apply (unknown_channel_ignored "foot 50" initial "foot"); reflexivity.
Defined.

(** ** The jaw interpolator *)

(** The interpolator leaves the target, the buffer and the flag alone. *)
Lemma smooth_frame currentTime s :
  targetJawAngle (fst (smoothJawMovement currentTime s)) = targetJawAngle s /\
  inputString (fst (smoothJawMovement currentTime s)) = inputString s /\
  stringComplete (fst (smoothJawMovement currentTime s)) = stringComplete s.
Proof.
  unfold smoothJawMovement.
  destruct (JAW_UPDATE_DELAY_MS <=? to_ulong (currentTime - lastJawUpdateTime s));
    [|simpl; auto].
  cbn [currentJawAngle targetJawAngle set_lastJawUpdateTime].
  destruct (currentJawAngle s <? targetJawAngle s); [simpl; auto|].
  destruct (targetJawAngle s <? currentJawAngle s); simpl; auto.
Qed.

(** With no command ready, an iteration is the interpolator alone. *)
Lemma loop_no_command currentTime s :
  stringComplete s = false ->
  loop currentTime s = smoothJawMovement currentTime s.
Proof.
  intros Hf. rewrite loop_eq, serialCommandProcessing_eq.
  destruct (smooth_frame currentTime s) as (_ & _ & ->). rewrite Hf.
  simpl. rewrite app_nil_r. destruct (smoothJawMovement currentTime s).
  reflexivity.
Qed.

Lemma elapsed_iff currentTime s :
  elapsed currentTime s = true <->
  JAW_UPDATE_DELAY_MS <= to_ulong (currentTime - lastJawUpdateTime s).
Proof. unfold elapsed. apply Z.leb_le. Qed.

(** Rising: [k] steps up, [k] the smaller of the number of iterations and
    the distance. *)
Lemma ticks_up (times : list Z) : forall s,
  stringComplete s = false ->
  is_int (currentJawAngle s) -> is_int (targetJawAngle s) ->
  currentJawAngle s <= targetJawAngle s ->
  all_elapsed (lastJawUpdateTime s) times ->
  let k := Nat.min (List.length times)
                   (Z.to_nat (targetJawAngle s - currentJawAngle s)) in
  let r := run (map Loop times) s in
  currentJawAngle (fst r) = currentJawAngle s + Z.of_nat k /\
  targetJawAngle (fst r) = targetJawAngle s /\
  stringComplete (fst r) = false /\
  snd r = map (fun i => ServoWrite servoJaw (currentJawAngle s + Z.of_nat i))
              (seq 1 k).
Proof.
  induction times as [|T rest IH]; intros s Hf Hc Ht Hle Hel.
  - simpl. repeat split; auto. lia.
  - destruct Hel as [He Hel]. apply elapsed_iff in He.
    cbn zeta. rewrite map_cons, run_cons.
    cbn [step fst snd]. rewrite (loop_no_command _ _ Hf).
    destruct (Z.eq_dec (currentJawAngle s) (targetJawAngle s)) as [Heq|Hne].
    + rewrite (smooth_idle _ _ He Heq). cbn [fst snd].
      specialize (IH (set_lastJawUpdateTime s (millis T)) Hf Hc Ht Hle Hel).
      cbn zeta in IH.
      cbn [currentJawAngle targetJawAngle set_lastJawUpdateTime] in IH.
      replace (Z.to_nat (targetJawAngle s - currentJawAngle s)) with 0%nat
        in * by lia.
      rewrite Nat.min_0_r in *. exact IH.
    + assert (Hlt : currentJawAngle s < targetJawAngle s) by lia.
      rewrite (smooth_up _ _ He Hlt Hc Ht). cbn [fst snd].
      set (s1 := set_currentJawAngle (set_lastJawUpdateTime s (millis T))
                                     (currentJawAngle s + 1)).
      assert (Hc1 : is_int (currentJawAngle s1))
        by (unfold is_int in *; simpl; lia).
      specialize (IH s1 Hf Hc1 Ht ltac:(simpl; lia) Hel).
      cbn zeta in IH. destruct IH as (IHc & IHt & IHf & IHe).
      change (currentJawAngle s1) with (currentJawAngle s + 1) in *.
      change (targetJawAngle s1) with (targetJawAngle s) in *.
      set (d := targetJawAngle s - currentJawAngle s) in *.
      replace (Z.to_nat (targetJawAngle s - (currentJawAngle s + 1)))
        with (pred (Z.to_nat d)) in * by (subst d; lia).
      assert (Hk : Nat.min (List.length (T :: rest)) (Z.to_nat d)
                   = S (Nat.min (List.length rest) (pred (Z.to_nat d))))
        by (cbn [List.length]; subst d; lia).
      rewrite Hk. split; [rewrite IHc; lia|].
      split; [exact IHt|]. split; [exact IHf|].
      rewrite IHe. cbn [seq map app].
      apply f_equal2; [f_equal; lia|].
      rewrite <- (seq_shift _ 1), map_map. apply map_ext.
      intros i. f_equal. lia.
Qed.

(** Falling: the mirror image. *)
Lemma ticks_down (times : list Z) : forall s,
  stringComplete s = false ->
  is_int (currentJawAngle s) -> is_int (targetJawAngle s) ->
  targetJawAngle s <= currentJawAngle s ->
  all_elapsed (lastJawUpdateTime s) times ->
  let k := Nat.min (List.length times)
                   (Z.to_nat (currentJawAngle s - targetJawAngle s)) in
  let r := run (map Loop times) s in
  currentJawAngle (fst r) = currentJawAngle s - Z.of_nat k /\
  targetJawAngle (fst r) = targetJawAngle s /\
  stringComplete (fst r) = false /\
  snd r = map (fun i => ServoWrite servoJaw (currentJawAngle s - Z.of_nat i))
              (seq 1 k).
Proof.
  induction times as [|T rest IH]; intros s Hf Hc Ht Hle Hel.
  - simpl. repeat split; auto. lia.
  - destruct Hel as [He Hel]. apply elapsed_iff in He.
    cbn zeta. rewrite map_cons, run_cons.
    cbn [step fst snd]. rewrite (loop_no_command _ _ Hf).
    destruct (Z.eq_dec (currentJawAngle s) (targetJawAngle s)) as [Heq|Hne].
    + rewrite (smooth_idle _ _ He Heq). cbn [fst snd].
      specialize (IH (set_lastJawUpdateTime s (millis T)) Hf Hc Ht Hle Hel).
      cbn zeta in IH.
      cbn [currentJawAngle targetJawAngle set_lastJawUpdateTime] in IH.
      replace (Z.to_nat (currentJawAngle s - targetJawAngle s)) with 0%nat
        in * by lia.
      rewrite Nat.min_0_r in *. exact IH.
    + assert (Hlt : targetJawAngle s < currentJawAngle s) by lia.
      rewrite (smooth_down _ _ He Hlt Hc Ht). cbn [fst snd].
      set (s1 := set_currentJawAngle (set_lastJawUpdateTime s (millis T))
                                     (currentJawAngle s - 1)).
      assert (Hc1 : is_int (currentJawAngle s1))
        by (unfold is_int in *; simpl; lia).
      specialize (IH s1 Hf Hc1 Ht ltac:(simpl; lia) Hel).
      cbn zeta in IH. destruct IH as (IHc & IHt & IHf & IHe).
      change (currentJawAngle s1) with (currentJawAngle s - 1) in *.
      change (targetJawAngle s1) with (targetJawAngle s) in *.
      set (d := currentJawAngle s - targetJawAngle s) in *.
      replace (Z.to_nat (currentJawAngle s - 1 - targetJawAngle s))
        with (pred (Z.to_nat d)) in * by (subst d; lia).
      assert (Hk : Nat.min (List.length (T :: rest)) (Z.to_nat d)
                   = S (Nat.min (List.length rest) (pred (Z.to_nat d))))
        by (cbn [List.length]; subst d; lia).
      rewrite Hk. split; [rewrite IHc; lia|].
      split; [exact IHt|]. split; [exact IHf|].
      rewrite IHe. cbn [seq map app].
      apply f_equal2; [f_equal; lia|].
      rewrite <- (seq_shift _ 1), map_map. apply map_ext.
      intros i. f_equal. lia.
Qed.

(** Idle: whatever the clock reads, an iteration with nothing to dispatch
    writes nothing while the current angle equals the target. *)
Lemma idle_silent (times : list Z) : forall s,
  stringComplete s = false ->
  currentJawAngle s = targetJawAngle s ->
  snd (run (map Loop times) s) = [] /\
  currentJawAngle (fst (run (map Loop times) s)) = currentJawAngle s /\
  targetJawAngle (fst (run (map Loop times) s)) = targetJawAngle s.
Proof.
  induction times as [|T rest IH]; intros s Hf Heq.
  - simpl. auto.
  - rewrite map_cons, run_cons. cbn [step fst snd].
    rewrite (loop_no_command _ _ Hf).
    destruct (elapsed (millis T) s) eqn:He.
    + rewrite (smooth_idle _ _ He Heq). cbn [fst snd app].
      apply (IH (set_lastJawUpdateTime s (millis T)) Hf Heq).
    + rewrite (smooth_waiting _ _ He). cbn [fst snd app].
      apply (IH s Hf Heq).
Qed.

(** Discharges a concrete [all_elapsed] or clock comparison by evaluation. *)
Ltac by_evaluation :=
  vm_compute; repeat split; try (intros Hcmp; discriminate Hcmp).

(** C2. Take a state with current jaw angle C and target T, nothing pending
    on the serial side, and a run of loop iterations each of which finds the
    quantum elapsed. Let k be the smaller of the number of iterations and the
    distance |T - C|. Then the target is still T; the events of the run are
    exactly k jaw writes, of C+1, C+2, ..., C+k when T is above C and of C-1,
    C-2, ..., C-k when T is below (one degree per iteration, strictly
    monotonic, each written value the new current angle); the current angle
    ends k degrees nearer, hence at T once |T - C| iterations have run; and
    from then on further iterations, whatever the clock reads, write
    nothing. *)
Theorem jaw_converges :
  forall (s : State) (times : list Z),
    let C := currentJawAngle s in
    let T := targetJawAngle s in
    stringComplete s = false ->
    is_int C -> is_int T ->
    all_elapsed (lastJawUpdateTime s) times ->
    let k := Nat.min (List.length times) (Z.abs_nat (T - C)) in
    let r := run (map Loop times) s in
    targetJawAngle (fst r) = T /\
    (C <= T ->
     currentJawAngle (fst r) = C + Z.of_nat k /\
     snd r = map (fun i => ServoWrite servoJaw (C + Z.of_nat i)) (seq 1 k)) /\
    (T <= C ->
     currentJawAngle (fst r) = C - Z.of_nat k /\
     snd r = map (fun i => ServoWrite servoJaw (C - Z.of_nat i)) (seq 1 k)) /\
    ((Z.abs_nat (T - C) <= List.length times)%nat ->
     currentJawAngle (fst r) = T /\
     forall more, snd (run (map Loop more) (fst r)) = []).
Proof.
  intros s times C T Hf Hc Ht Hel k r.
  assert (Hup : C <= T ->
                currentJawAngle (fst r) = C + Z.of_nat k /\
                targetJawAngle (fst r) = T /\ stringComplete (fst r) = false /\
                snd r = map (fun i => ServoWrite servoJaw (C + Z.of_nat i))
                            (seq 1 k)).
  { intros Hle. pose proof (ticks_up times s Hf Hc Ht Hle Hel) as H.
    cbn zeta in H. fold C T in H.
    replace (Z.to_nat (T - C)) with (Z.abs_nat (T - C)) in H by lia.
    exact H. }
  assert (Hdown : T <= C ->
                  currentJawAngle (fst r) = C - Z.of_nat k /\
                  targetJawAngle (fst r) = T /\ stringComplete (fst r) = false /\
                  snd r = map (fun i => ServoWrite servoJaw (C - Z.of_nat i))
                              (seq 1 k)).
  { intros Hle. pose proof (ticks_down times s Hf Hc Ht Hle Hel) as H.
    cbn zeta in H. fold C T in H.
    replace (Z.to_nat (C - T)) with (Z.abs_nat (T - C)) in H by lia.
    exact H. }
  assert (Hcommon : targetJawAngle (fst r) = T /\ stringComplete (fst r) = false).
  { destruct (Z.le_ge_cases C T) as [Hle|Hle];
      [destruct (Hup Hle) as (_ & ? & ? & _) | destruct (Hdown Hle) as (_ & ? & ? & _)];
      auto. }
  destruct Hcommon as [HT HF].
  split; [exact HT|].
  split; [intros Hle; destruct (Hup Hle) as (? & _ & _ & ?); auto|].
  split; [intros Hle; destruct (Hdown Hle) as (? & _ & _ & ?); auto|].
  intros Hlen.
  assert (Hk : k = Z.abs_nat (T - C)) by (subst k; lia).
  assert (Hcur : currentJawAngle (fst r) = T).
  { destruct (Z.le_ge_cases C T) as [Hle|Hle];
      [destruct (Hup Hle) as (-> & _) | destruct (Hdown Hle) as (-> & _)];
      rewrite Hk; lia. }
  split; [exact Hcur|].
  intros more. apply (idle_silent more (fst r) HF). congruence.
Qed.

Lemma jaw_converges_witness :
  all_elapsed 0 [6; 12; 18; 24; 30] /\
  snd (run (map Loop [6; 12; 18; 24; 30]) (mkState 30 33 0 "" false))
  = [ServoWrite servoJaw 31; ServoWrite servoJaw 32; ServoWrite servoJaw 33].
Proof.
  split; [by_evaluation|].
  destruct (jaw_converges (mkState 30 33 0 "" false) [6; 12; 18; 24; 30])
    as (_ & Hup & _).
  - reflexivity.
  - by_evaluation.
  - by_evaluation.
  - by_evaluation.
  - destruct Hup as [_ Hev]; [by_evaluation|].
    rewrite Hev. reflexivity.
Defined.

(** ** Dispatch inside the loop *)

Lemma writesTo_app sv evs1 evs2 :
  writesTo sv (evs1 ++ evs2) = writesTo sv evs1 ++ writesTo sv evs2.
Proof.
  induction evs1 as [|e evs1 IH]; [reflexivity|].
  destruct e as [| sv' a | | | | |]; simpl; try exact IH.
  destruct sv, sv'; simpl; rewrite IH; reflexivity.
Qed.

Lemma processCommand_jaw_silent command s :
  writesTo servoJaw (snd (processCommand command s)) = [].
Proof.
  destruct (processCommand_events command s) as [-> | (sv & Hsv & ->)];
    [reflexivity|].
  destruct sv; [reflexivity | contradiction | reflexivity | reflexivity].
Qed.

Lemma processCommand_keeps command s :
  currentJawAngle (fst (processCommand command s)) = currentJawAngle s /\
  lastJawUpdateTime (fst (processCommand command s)) = lastJawUpdateTime s /\
  inputString (fst (processCommand command s)) = inputString s /\
  stringComplete (fst (processCommand command s)) = stringComplete s.
Proof.
  destruct (processCommand_state command s) as [-> | ->]; simpl; auto.
Qed.

Lemma serialCommandProcessing_keeps s :
  currentJawAngle (fst (serialCommandProcessing s)) = currentJawAngle s /\
  lastJawUpdateTime (fst (serialCommandProcessing s)) = lastJawUpdateTime s /\
  writesTo servoJaw (snd (serialCommandProcessing s)) = [].
Proof.
  rewrite serialCommandProcessing_eq. destruct (stringComplete s); [|simpl; auto].
  destruct (processCommand_keeps (inputString s) s) as (Hc & Hl & _).
  cbn [fst snd]. rewrite writesTo_app, processCommand_jaw_silent.
  simpl. auto.
Qed.

(** The jaw side of an iteration is the interpolator's. *)
Lemma loop_jaw currentTime s :
  currentJawAngle (fst (loop currentTime s))
  = currentJawAngle (fst (smoothJawMovement currentTime s)) /\
  lastJawUpdateTime (fst (loop currentTime s))
  = lastJawUpdateTime (fst (smoothJawMovement currentTime s)) /\
  writesTo servoJaw (snd (loop currentTime s))
  = writesTo servoJaw (snd (smoothJawMovement currentTime s)).
Proof.
  rewrite loop_eq. cbn [fst snd].
  destruct (serialCommandProcessing_keeps (fst (smoothJawMovement currentTime s)))
    as (-> & -> & Hw).
  rewrite writesTo_app, Hw, app_nil_r. auto.
Qed.

Lemma smooth_last currentTime s :
  lastJawUpdateTime (fst (smoothJawMovement currentTime s))
  = if elapsed currentTime s then currentTime else lastJawUpdateTime s.
Proof.
  unfold elapsed, smoothJawMovement.
  destruct (JAW_UPDATE_DELAY_MS <=? to_ulong (currentTime - lastJawUpdateTime s));
    [|reflexivity].
  cbn [currentJawAngle targetJawAngle set_lastJawUpdateTime].
  destruct (currentJawAngle s <? targetJawAngle s); [reflexivity|].
  destruct (targetJawAngle s <? currentJawAngle s); reflexivity.
Qed.

(** The current angle after the interpolator: where it was, or one degree
    nearer the target. *)
Lemma smooth_current currentTime s :
  is_int (currentJawAngle s) -> is_int (targetJawAngle s) ->
  let c' := currentJawAngle (fst (smoothJawMovement currentTime s)) in
  (c' = currentJawAngle s) \/
  (c' = currentJawAngle s + 1 /\ currentJawAngle s < targetJawAngle s) \/
  (c' = currentJawAngle s - 1 /\ targetJawAngle s < currentJawAngle s).
Proof.
  intros Hc Ht. cbn zeta.
  destruct (elapsed currentTime s) eqn:He;
    [|rewrite (smooth_waiting _ _ He); left; reflexivity].
  destruct (Z.lt_trichotomy (currentJawAngle s) (targetJawAngle s)) as [H|[H|H]].
  - rewrite (smooth_up _ _ He H Hc Ht). right; left. simpl. auto.
  - rewrite (smooth_idle _ _ He H). left. reflexivity.
  - rewrite (smooth_down _ _ He H Hc Ht). right; right. simpl. auto.
Qed.

(** An iteration that dispatches a jaw command: the interpolator runs first
    (against the old target), then the target is replaced, the buffer is
    cleared and "K" is printed. *)
Lemma loop_jaw_command currentTime s tok :
  stringComplete s = true ->
  channelToken (inputString s) = Some tok ->
  equalsIgnoreCase tok "jaw" = true ->
  loop currentTime s =
  (set_stringComplete
     (set_inputString
        (set_targetJawAngle (fst (smoothJawMovement currentTime s))
                            (clampedAngle (inputString s))) "") false,
   snd (smoothJawMovement currentTime s) ++ [SerialPrintln "K"]).
Proof.
  intros Hf Ht Hjaw. rewrite loop_eq, serialCommandProcessing_eq.
  destruct (smooth_frame currentTime s) as (_ & Hi & Hs).
  rewrite Hs, Hf, Hi.
  rewrite (processCommand_jaw _ _ tok Ht Hjaw). reflexivity.
Qed.

(** C5. Let a jaw command be ready when an iteration starts, in any state,
    in particular one still converging toward an older target. That
    iteration replaces the target by the command's clamped angle A at once
    (the current angle having moved at most one degree, toward the old
    target, in the interpolator half that precedes the dispatch). The next
    iteration that finds the quantum elapsed moves the current angle one
    degree toward A and writes it: the old target plays no part any more. *)
Theorem jaw_retarget :
  forall (s : State) (tok : string) (now next : Z),
    stringComplete s = true ->
    channelToken (inputString s) = Some tok ->
    equalsIgnoreCase tok "jaw" = true ->
    is_int (currentJawAngle s) -> is_int (targetJawAngle s) ->
    let A := clampedAngle (inputString s) in
    let s1 := fst (loop now s) in
    targetJawAngle s1 = A /\
    stringComplete s1 = false /\
    (elapsed next s1 = true ->
     (currentJawAngle s1 < A ->
      currentJawAngle (fst (loop next s1)) = currentJawAngle s1 + 1 /\
      snd (loop next s1) = [ServoWrite servoJaw (currentJawAngle s1 + 1)]) /\
     (A < currentJawAngle s1 ->
      currentJawAngle (fst (loop next s1)) = currentJawAngle s1 - 1 /\
      snd (loop next s1) = [ServoWrite servoJaw (currentJawAngle s1 - 1)]) /\
     (currentJawAngle s1 = A -> snd (loop next s1) = [])).
Proof.
  intros s tok now next Hf Htok Hjaw Hc Ht A s1.
  assert (Hs1 : s1 =
                set_stringComplete
                  (set_inputString
                     (set_targetJawAngle (fst (smoothJawMovement now s)) A) "")
                  false)
    by (subst s1; rewrite (loop_jaw_command now s tok Hf Htok Hjaw); reflexivity).
  assert (HT : targetJawAngle s1 = A) by (rewrite Hs1; reflexivity).
  assert (HF : stringComplete s1 = false) by (rewrite Hs1; reflexivity).
  assert (HA : is_int A) by apply in_range_is_int, constrain_in_range.
  assert (HC : is_int (currentJawAngle s1)).
  { rewrite Hs1. cbn [currentJawAngle set_stringComplete set_inputString
                       set_targetJawAngle].
    destruct (smooth_current now s Hc Ht) as [-> | [[-> ?] | [-> ?]]];
      unfold is_int in *; lia. }
  split; [exact HT|]. split; [exact HF|].
  intros He. rewrite (loop_no_command next s1 HF).
  rewrite <- HT in *. repeat split.
  - rewrite (smooth_up next s1 He H HC HA). reflexivity.
  - rewrite (smooth_up next s1 He H HC HA). reflexivity.
  - rewrite (smooth_down next s1 He H HC HA). reflexivity.
  - rewrite (smooth_down next s1 He H HC HA). reflexivity.
  - intros Heq. rewrite (smooth_idle next s1 He Heq). reflexivity.
Qed.

Lemma jaw_retarget_witness :
  channelToken "jaw 10" = Some "jaw" /\
  (let s1 := fst (loop 506 (mkState 30 100 500 "jaw 10" true)) in
   currentJawAngle s1 = 31 /\ targetJawAngle s1 = 10 /\
   snd (loop 512 s1) = [ServoWrite servoJaw 30]).
Proof.
  split; [reflexivity|]. cbn zeta.
  destruct (jaw_retarget (mkState 30 100 500 "jaw 10" true) "jaw" 506 512)
    as (HT & _ & Hnext).
  - reflexivity.
  - reflexivity.
  - reflexivity.
  - by_evaluation.
  - by_evaluation.
  - split; [reflexivity|]. split; [exact HT|].
    destruct Hnext as (_ & Hdown & _); [reflexivity|].
    destruct Hdown as [_ Hev]; [reflexivity|].
    rewrite Hev. reflexivity.
Defined.

(** ** The step timer *)

(** The unsigned difference of two clock readings is at most the time
    that passed between them. *)
Lemma ulong_gap (R T : Z) :
  R <= T ->
  JAW_UPDATE_DELAY_MS <= to_ulong (millis T - millis R) ->
  R + JAW_UPDATE_DELAY_MS <= T.
Proof.
  unfold millis, to_ulong, ULONG_MODULUS, JAW_UPDATE_DELAY_MS.
  change (2 ^ 32) with 4294967296. intros Hle H.
  rewrite <- Zminus_mod in H.
  destruct (Z_lt_le_dec (T - R) 6) as [Hlt|Hge]; [|lia].
  rewrite Z.mod_small in H by lia. lia.
Qed.

Lemma monotone_weaken (lo lo' : Z) (l : list Z) :
  lo' <= lo -> monotone lo l -> monotone lo' l.
Proof. destruct l as [|T rest]; simpl; [auto|]. intros H [H1 H2]. split; [lia|auto]. Qed.

Lemma spaced_cons (q a : Z) (l : list Z) :
  Forall (fun b => a + q <= b) l -> spaced q l -> spaced q (a :: l).
Proof.
  intros Hall Hsp. simpl. split; [|exact Hsp].
  destruct l as [|b rest]; [exact I|]. inversion Hall; assumption.
Qed.

Lemma loop_last currentTime s :
  lastJawUpdateTime (fst (loop currentTime s))
  = if elapsed currentTime s then currentTime else lastJawUpdateTime s.
Proof.
  destruct (loop_jaw currentTime s) as (_ & -> & _). apply smooth_last.
Qed.

Lemma loop_waiting currentTime s :
  elapsed currentTime s = false ->
  writesTo servoJaw (snd (loop currentTime s)) = [] /\
  currentJawAngle (fst (loop currentTime s)) = currentJawAngle s.
Proof.
  intros He. destruct (loop_jaw currentTime s) as (-> & _ & ->).
  rewrite (smooth_waiting _ _ He). auto.
Qed.

Lemma loop_idle currentTime s :
  currentJawAngle s = targetJawAngle s ->
  writesTo servoJaw (snd (loop currentTime s)) = [] /\
  currentJawAngle (fst (loop currentTime s)) = currentJawAngle s.
Proof.
  intros Heq. destruct (elapsed currentTime s) eqn:He;
    [|apply (loop_waiting _ _ He)].
  destruct (loop_jaw currentTime s) as (-> & _ & ->).
  rewrite (smooth_idle _ _ He Heq). auto.
Qed.

(** From a state whose timestamp was taken at time [R], with the clock at
    or after [R] from then on: every jaw write comes at least a quantum
    after [R], and the jaw writes are a quantum apart. *)
Lemma jaw_writes_spaced (inputs : list Input) : forall (s : State) (R : Z),
  lastJawUpdateTime s = millis R ->
  monotone R (loopTimes inputs) ->
  Forall (fun T => R + JAW_UPDATE_DELAY_MS <= T) (jawWriteTimes inputs s) /\
  spaced JAW_UPDATE_DELAY_MS (jawWriteTimes inputs s).
Proof.
  induction inputs as [|i rest IH]; intros s R Hlast Hmono.
  - simpl. split; [constructor | exact I].
  - destruct i as [T|available].
    + destruct Hmono as [HRT Hmono]. cbn [jawWriteTimes step].
      pose proof (loop_last (millis T) s) as Hl.
      destruct (elapsed (millis T) s) eqn:He.
      * apply elapsed_iff in He. rewrite Hlast in He.
        pose proof (ulong_gap R T HRT He) as Hgap.
        destruct (IH (fst (loop (millis T) s)) T Hl Hmono) as [Hall Hsp].
        assert (Hall' : Forall (fun T' => R + JAW_UPDATE_DELAY_MS <= T')
                               (jawWriteTimes rest (fst (loop (millis T) s)))).
        { eapply Forall_impl; [|exact Hall]. simpl.
          unfold JAW_UPDATE_DELAY_MS in *. intros; lia. }
        destruct (writesTo servoJaw (snd (loop (millis T) s))).
        -- split; assumption.
        -- split; [constructor; assumption | apply spaced_cons; assumption].
      * destruct (loop_waiting _ _ He) as [-> _].
        rewrite Hlast in Hl.
        apply (IH (fst (loop (millis T) s)) R); [exact Hl|].
        apply (monotone_weaken T R); assumption.
    + cbn [jawWriteTimes step fst snd writesTo loopTimes] in *.
      apply (IH (serialEvent available s) R); [|assumption].
      destruct (serialEvent_jaw available s) as (_ & _ & ->). exact Hlast.
Qed.

(** C10. (1) An iteration that finds the quantum elapsed sets the step
    timestamp to the clock reading, also when the jaw is idle, in which case
    it writes nothing to the jaw and leaves the current angle alone; an
    iteration that does not find it elapsed keeps the timestamp and writes
    nothing to the jaw. (2) From power-up, as long as time does not run
    backwards, any two successive jaw writes of the loop are at least one
    quantum apart. (3) When a jaw command is dispatched in an idle state,
    the dispatching iteration performs no step; the timestamp after it is
    that of the most recent refresh; and a following iteration that does not
    find the quantum elapsed since that refresh still performs no step,
    while one that does performs exactly one. *)
Theorem jaw_step_timer :
  (forall currentTime s,
      (elapsed currentTime s = true ->
       lastJawUpdateTime (fst (loop currentTime s)) = currentTime /\
       (currentJawAngle s = targetJawAngle s ->
        writesTo servoJaw (snd (loop currentTime s)) = [] /\
        currentJawAngle (fst (loop currentTime s)) = currentJawAngle s)) /\
      (elapsed currentTime s = false ->
       lastJawUpdateTime (fst (loop currentTime s)) = lastJawUpdateTime s /\
       writesTo servoJaw (snd (loop currentTime s)) = [] /\
       currentJawAngle (fst (loop currentTime s)) = currentJawAngle s)) /\
  (forall inputs,
      monotone 0 (loopTimes inputs) ->
      spaced JAW_UPDATE_DELAY_MS (jawWriteTimes inputs initial)) /\
  (forall s tok now next,
      stringComplete s = true ->
      channelToken (inputString s) = Some tok ->
      equalsIgnoreCase tok "jaw" = true ->
      currentJawAngle s = targetJawAngle s ->
      is_int (currentJawAngle s) ->
      let s1 := fst (loop now s) in
      writesTo servoJaw (snd (loop now s)) = [] /\
      currentJawAngle s1 = currentJawAngle s /\
      targetJawAngle s1 = clampedAngle (inputString s) /\
      lastJawUpdateTime s1
      = (if elapsed now s then now else lastJawUpdateTime s) /\
      (elapsed next s1 = false ->
       writesTo servoJaw (snd (loop next s1)) = [] /\
       currentJawAngle (fst (loop next s1)) = currentJawAngle s1) /\
      (elapsed next s1 = true ->
       currentJawAngle s1 <> targetJawAngle s1 ->
       List.length (writesTo servoJaw (snd (loop next s1))) = 1%nat)).
Proof.
  split; [|split].
  - intros currentTime s. split; intros He.
    + pose proof (loop_last currentTime s) as Hl. rewrite He in Hl.
      split; [exact Hl|]. intros Heq. apply (loop_idle _ _ Heq).
    + pose proof (loop_last currentTime s) as Hl. rewrite He in Hl.
      split; [exact Hl|]. apply (loop_waiting _ _ He).
  - intros inputs Hmono.
    apply (jaw_writes_spaced inputs initial 0); [reflexivity | exact Hmono].
  - intros s tok now next Hf Htok Hjaw Hidle Hc s1.
    destruct (loop_idle now s Hidle) as [Hw Hcur].
    assert (Hs1 : s1 =
                  set_stringComplete
                    (set_inputString
                       (set_targetJawAngle (fst (smoothJawMovement now s))
                                           (clampedAngle (inputString s))) "")
                    false)
      by (subst s1; rewrite (loop_jaw_command now s tok Hf Htok Hjaw);
          reflexivity).
    assert (HT : targetJawAngle s1 = clampedAngle (inputString s))
      by (rewrite Hs1; reflexivity).
    assert (HF : stringComplete s1 = false) by (rewrite Hs1; reflexivity).
    split; [exact Hw|]. split; [exact Hcur|]. split; [exact HT|].
    split; [apply loop_last|].
    split; [intros He; apply (loop_waiting _ _ He)|].
    intros He Hne.
    assert (HC : is_int (currentJawAngle s1)) by (fold s1 in Hcur; congruence).
    assert (HA : is_int (targetJawAngle s1))
      by (rewrite HT; apply in_range_is_int, constrain_in_range).
    rewrite (loop_no_command next s1 HF).
    destruct (Z.lt_trichotomy (currentJawAngle s1) (targetJawAngle s1))
      as [H|[H|H]]; [|contradiction|].
    + rewrite (smooth_up next s1 He H HC HA). reflexivity.
    + rewrite (smooth_down next s1 He H HC HA). reflexivity.
Qed.

Lemma jaw_step_timer_witness :
  monotone 0 (loopTimes [SerialEvent ("jaw 32" ++ String newline "");
                         Loop 501; Loop 503; Loop 507; Loop 512; Loop 513]) /\
  jawWriteTimes [SerialEvent ("jaw 32" ++ String newline "");
                 Loop 501; Loop 503; Loop 507; Loop 512; Loop 513] initial
  = [507; 513] /\
  spaced JAW_UPDATE_DELAY_MS [507; 513].
Proof.
  split; [by_evaluation|]. split; [reflexivity|].
  destruct jaw_step_timer as (_ & Hspaced & _).
  apply (Hspaced [SerialEvent ("jaw 32" ++ String newline "");
                  Loop 501; Loop 503; Loop 507; Loop 512; Loop 513]).
  by_evaluation.
Defined.

(** ** The reader and the hand-over to the loop *)

Lemma append_empty_r (s : string) : (s ++ "")%string = s.
Proof. induction s as [|c r IH]; simpl; [reflexivity | rewrite IH; reflexivity]. Qed.

Lemma append_char_assoc (s : string) (c : ascii) (r : string) :
  (concat_char s c ++ r)%string = (s ++ String c r)%string.
Proof.
  unfold concat_char. induction s as [|c' s IH]; simpl;
    [reflexivity | rewrite IH; reflexivity].
Qed.

(** A drain that holds one line: the bytes join the buffer and the flag is
    raised. *)
Lemma serialEvent_line (l : string) : forall s,
  contains newline l = false ->
  serialEvent (line l) s
  = set_stringComplete (set_inputString s (inputString s ++ l)%string) true.
Proof.
  unfold line. induction l as [|c r IH]; intros s Hnl.
  - simpl. rewrite append_empty_r. destruct s; reflexivity.
  - simpl in Hnl. apply orb_false_iff in Hnl as [Hc Hr].
    cbn [append serialEvent]. rewrite Hc. cbn [negb].
    rewrite (IH _ Hr). cbn [inputString set_inputString].
    rewrite append_char_assoc. reflexivity.
Qed.

(** [indexOf] finds nothing where the character does not occur. *)
Lemma indexOf_absent (ch : ascii) (s : string) : forall i,
  contains ch s = false -> indexOf_from ch s i = -1.
Proof.
  induction s as [|c r IH]; intros i H; simpl in *; [reflexivity|].
  apply orb_false_iff in H as [Hc Hr]. rewrite Hc.
  destruct (Ascii.eqb c NUL); [reflexivity | apply IH, Hr].
Qed.

Lemma channelToken_no_space (l : string) :
  contains space (trim l) = false -> channelToken l = None.
Proof.
  intros H. unfold channelToken, indexOf.
  rewrite (indexOf_absent _ _ 0 H). reflexivity.
Qed.

(** The interpolator does not look at the serial side. *)
Lemma smooth_serial_side currentTime s buffer flag :
  smoothJawMovement currentTime (set_stringComplete (set_inputString s buffer) flag)
  = (set_stringComplete
       (set_inputString (fst (smoothJawMovement currentTime s)) buffer) flag,
     snd (smoothJawMovement currentTime s)).
Proof.
  unfold smoothJawMovement. cbn.
  destruct (JAW_UPDATE_DELAY_MS <=? to_ulong (currentTime - lastJawUpdateTime s));
    [|reflexivity].
  destruct (currentJawAngle s <? targetJawAngle s); [reflexivity|].
  destruct (targetJawAngle s <? currentJawAngle s); reflexivity.
Qed.

Lemma servoWrites_app evs1 evs2 :
  servoWrites (evs1 ++ evs2) = servoWrites evs1 ++ servoWrites evs2.
Proof.
  induction evs1 as [|e evs1 IH]; [reflexivity|].
  destruct e; simpl; rewrite ?IH; reflexivity.
Qed.

Lemma printed_app evs1 evs2 :
  printed (evs1 ++ evs2) = printed evs1 ++ printed evs2.
Proof.
  induction evs1 as [|e evs1 IH]; [reflexivity|].
  destruct e; simpl; rewrite ?IH; reflexivity.
Qed.

Lemma smooth_prints_nothing currentTime s :
  printed (snd (smoothJawMovement currentTime s)) = [].
Proof.
  unfold smoothJawMovement.
  destruct (JAW_UPDATE_DELAY_MS <=? to_ulong (currentTime - lastJawUpdateTime s));
    [|reflexivity].
  cbn [currentJawAngle targetJawAngle set_lastJawUpdateTime].
  destruct (currentJawAngle s <? targetJawAngle s); [reflexivity|].
  destruct (targetJawAngle s <? currentJawAngle s); reflexivity.
Qed.

Lemma processCommand_prints_nothing command s :
  printed (snd (processCommand command s)) = [].
Proof.
  destruct (processCommand_events command s) as [-> | (sv & _ & ->)];
    reflexivity.
Qed.

(** An iteration prints "K" exactly when it found a command ready, and
    leaves the flag lowered. *)
Lemma loop_prints currentTime s :
  printed (snd (loop currentTime s))
  = (if stringComplete s then ["K"] else []) /\
  stringComplete (fst (loop currentTime s)) = false.
Proof.
  rewrite loop_eq, serialCommandProcessing_eq.
  destruct (smooth_frame currentTime s) as (_ & _ & ->).
  cbn [fst snd]. rewrite printed_app, smooth_prints_nothing.
  destruct (stringComplete s) eqn:Hf; cbn [fst snd].
  - rewrite printed_app, processCommand_prints_nothing. auto.
  - destruct (smooth_frame currentTime s) as (_ & _ & ->). auto.
Qed.

(** An iteration whose ready command the dispatcher discards. *)
Lemma loop_discard currentTime s buffer :
  (forall s0, processCommand buffer s0 = (s0, [])) ->
  inputString s = "" -> stringComplete s = false ->
  loop currentTime (set_stringComplete (set_inputString s buffer) true)
  = (fst (smoothJawMovement currentTime s),
     snd (smoothJawMovement currentTime s) ++ [SerialPrintln "K"]).
Proof.
  intros Hpc Hi Hf.
  rewrite loop_eq, smooth_serial_side. cbn [fst snd].
  rewrite serialCommandProcessing_eq.
  cbn [stringComplete inputString set_stringComplete set_inputString].
  rewrite Hpc. cbn [fst snd app].
  destruct (smooth_frame currentTime s) as (_ & Hi' & Hf').
  rewrite Hi in Hi'. rewrite Hf in Hf'.
  destruct (smoothJawMovement currentTime s) as [s1 ev1].
  cbn [fst snd] in *. destruct s1; cbn in *; subst. reflexivity.
Qed.

(** The dispatcher's side of a line without a space. Let the string handed
    to the loop (the buffer, with the flag raised) have no space once
    trimmed. The dispatcher discards it: no event, state untouched. The
    iteration that dispatches it ends in the very state it would have ended
    in had the buffer been empty and the flag down, with the same events
    followed by the acknowledgment; in particular the buffer is empty and
    the flag down afterwards, and every later input is handled alike. This
    says nothing of how the buffer came to hold the string: a line read in
    the same call of [serialEvent] as the bytes that follow it never reaches
    the dispatcher alone. *)
Lemma dispatch_discards_spaceless :
  forall (l : string) (s : State) (T : Z) (rest : list Input),
    contains space (trim l) = false ->
    inputString s = l -> stringComplete s = true ->
    let never := set_stringComplete (set_inputString s "") false in
    processCommand l s = (s, []) /\
    fst (loop (millis T) s) = fst (loop (millis T) never) /\
    snd (loop (millis T) s) = snd (loop (millis T) never) ++ [SerialPrintln "K"] /\
    inputString (fst (loop (millis T) s)) = "" /\
    stringComplete (fst (loop (millis T) s)) = false /\
    fst (run (Loop T :: rest) s) = fst (run (Loop T :: rest) never) /\
    servoWrites (snd (run (Loop T :: rest) s))
    = servoWrites (snd (run (Loop T :: rest) never)).
Proof.
  intros l s T rest Hsp Hi Hf never.
  pose proof (channelToken_no_space l Hsp) as Htok.
  assert (Hs : s = set_stringComplete (set_inputString never l) true)
    by (subst never; destruct s; cbn in *; subst; reflexivity).
  assert (Hloop : loop (millis T) s
                  = (fst (loop (millis T) never),
                     snd (loop (millis T) never) ++ [SerialPrintln "K"])).
  { rewrite (loop_no_command (millis T) never eq_refl).
    rewrite Hs at 1. apply loop_discard; [|reflexivity|reflexivity].
    intros s0. apply processCommand_no_space, Htok. }
  split; [apply processCommand_no_space, Htok|].
  split; [rewrite Hloop; reflexivity|].
  split; [rewrite Hloop; reflexivity|].
  destruct (smooth_frame (millis T) never) as (_ & Hi' & Hf').
  rewrite !run_cons. cbn [step]. rewrite Hloop. cbn [fst snd].
  rewrite (loop_no_command (millis T) never eq_refl).
  repeat split; auto.
  rewrite !servoWrites_app. cbn [servoWrites app]. rewrite app_nil_r.
  reflexivity.
Qed.

(** "neckonly" and "neck 90", each read by a call of [serialEvent] of its
    own with an iteration between them: only the neck is written. *)
Example spaceless_then_command_paced :
  contains space (trim "neckonly") = false /\
  serialEvent (line "neckonly") initial = mkState 30 30 0 "neckonly" true /\
  servoWrites
    (snd (run [SerialEvent (line "neckonly"); Loop 501;
               SerialEvent (line "neck 90"); Loop 503] initial))
  = [(servoNeck, 90)].
Proof.
  split; [reflexivity|]. split; [reflexivity|].
  destruct (dispatch_discards_spaceless
              "neckonly" (mkState 30 30 0 "neckonly" true) 501
              [SerialEvent (line "neck 90"); Loop 503])
    as (_ & _ & _ & _ & _ & _ & Hw).
  - reflexivity.
  - reflexivity.
  - reflexivity.
  - change (run [SerialEvent (line "neckonly"); Loop 501;
                 SerialEvent (line "neck 90"); Loop 503] initial)
      with (run [Loop 501; SerialEvent (line "neck 90"); Loop 503]
                (mkState 30 30 0 "neckonly" true)).
    rewrite Hw. reflexivity.
Qed.

Lemma terminators_line (l : string) :
  contains newline l = false -> terminators (line l) = 1%nat.
Proof.
  unfold line. induction l as [|c r IH]; intros H; [reflexivity|].
  simpl in H. apply orb_false_iff in H as [Hc Hr].
  cbn [append terminators]. rewrite Hc, (IH Hr). reflexivity.
Qed.

(** One line per drain, one acknowledgment per line. *)
Lemma session_prints (ls : list (string * Z)) : forall s,
  (forall l T, In (l, T) ls -> contains newline l = false) ->
  receivedLines (session ls) = List.length ls /\
  printed (snd (run (session ls) s)) = repeat "K" (List.length ls).
Proof.
  induction ls as [|[l T] rest IH]; intros s Hnl; [split; reflexivity|].
  assert (Hl : contains newline l = false) by (apply (Hnl l T); left; reflexivity).
  assert (Hrest : forall l' T', In (l', T') rest -> contains newline l' = false)
    by (intros l' T' Hin; apply (Hnl l' T'); right; exact Hin).
  cbn [session receivedLines List.length repeat].
  rewrite (terminators_line l Hl). rewrite !run_cons. cbn [step fst snd app].
  rewrite (serialEvent_line l s Hl).
  set (s1 := set_stringComplete (set_inputString s (inputString s ++ l)%string) true).
  destruct (loop_prints (millis T) s1) as [Hp _].
  destruct (IH (fst (loop (millis T) s1)) Hrest) as [Hcount Hprinted].
  split; [rewrite Hcount; reflexivity|].
  rewrite printed_app, Hp, Hprinted. reflexivity.
Qed.

(** The acknowledgment, iteration by iteration. An iteration that finds a
    completed line ready ends by printing the line "K", and prints nothing
    else, whatever the line holds: a command that is applied, one without a
    space, one for an unknown channel. An iteration that finds none prints
    nothing. Every iteration leaves the flag down, so nothing is acknowledged
    twice. In a session where each line is read by a serial event of its own
    and dispatched by the next iteration, the acknowledgments printed are as
    many as the lines received. *)
Lemma ack_per_handed_over_line :
  (forall currentTime s,
      stringComplete s = true ->
      exists evs, snd (loop currentTime s) = evs ++ [SerialPrintln "K"] /\
                  printed evs = []) /\
  (forall currentTime s,
      stringComplete s = false -> printed (snd (loop currentTime s)) = []) /\
  (forall currentTime s, stringComplete (fst (loop currentTime s)) = false) /\
  (forall ls s,
      (forall l T, In (l, T) ls -> contains newline l = false) ->
      printed (snd (run (session ls) s))
      = repeat "K" (receivedLines (session ls))).
Proof.
  split; [|split; [|split]].
  - intros t s Hf. rewrite loop_eq, serialCommandProcessing_eq.
    destruct (smooth_frame t s) as (_ & _ & ->). rewrite Hf. cbn [fst snd].
    exists (snd (smoothJawMovement t s)
            ++ snd (processCommand
                      (inputString (fst (smoothJawMovement t s)))
                      (fst (smoothJawMovement t s)))).
    split; [rewrite app_assoc; reflexivity|].
    rewrite printed_app, smooth_prints_nothing, processCommand_prints_nothing.
    reflexivity.
  - intros t s Hf. destruct (loop_prints t s) as [-> _]. rewrite Hf. reflexivity.
  - intros t s. apply (loop_prints t s).
  - intros ls s Hnl. destruct (session_prints ls s Hnl) as [-> ->]. reflexivity.
Qed.

Example ack_in_a_paced_session :
  printed
    (snd (run (session [("neckonly", 501); ("foot 50", 502); ("neck 90", 503)])
              initial))
  = ["K"; "K"; "K"].
Proof.
  destruct ack_per_handed_over_line as (_ & _ & _ & Hsession).
  rewrite Hsession; [reflexivity|].
  intros l T [Heq|[Heq|[Heq|[]]]]; injection Heq as <- _; reflexivity.
Qed.

(** C3. Two lines that wait in the receive buffer together, "neck 90" and
    "eye 50", are read by one call of [serialEvent]: the buffer then holds
    the bytes of both with the terminators dropped, and the flag is raised
    once. The loop dispatches that one string: the neck is written, the eye
    never is, and one acknowledgment is printed, however many iterations
    follow. *)
Theorem burst_lines_are_merged :
  let burst := (line "neck 90" ++ line "eye 50")%string in
  receivedLines [SerialEvent burst] = 2%nat /\
  inputString (serialEvent burst initial) = "neck 90eye 50" /\
  forall (T : Z) (times : list Z),
    let r := run (SerialEvent burst :: map Loop (T :: times)) initial in
    servoWrites (snd r) = [(servoNeck, 90)] /\ printed (snd r) = ["K"].
Proof.
  cbn zeta. split; [reflexivity|]. split; [reflexivity|].
  intros T times. rewrite run_cons. cbn [step fst snd app].
  change (serialEvent (line "neck 90" ++ line "eye 50") initial)
    with (mkState 30 30 0 "neck 90eye 50" true).
  set (s1 := mkState 30 30 0 "neck 90eye 50" true).
  rewrite map_cons, run_cons. cbn [step].
  assert (Hloop : exists last,
             loop (millis T) s1
             = (mkState 30 30 last "" false,
                [ServoWrite servoNeck 90; SerialPrintln "K"])).
  { rewrite loop_eq, serialCommandProcessing_eq.
    destruct (elapsed (millis T) s1) eqn:He.
    - rewrite (smooth_idle _ _ He eq_refl). exists (millis T). reflexivity.
    - rewrite (smooth_waiting _ _ He). exists 0. reflexivity. }
  destruct Hloop as [last ->]. cbn [fst snd].
  destruct (idle_silent times (mkState 30 30 last "" false) eq_refl eq_refl)
    as (-> & _). split; reflexivity.
Qed.

(** C7. Two lines that wait in the receive buffer together, "foot 50" and
    "neck 90", are two completed lines received; they are read by one call
    of [serialEvent], which raises the flag once, and the loop prints one
    "K" for the two of them, however many iterations follow. *)
Theorem burst_acknowledged_once :
  let burst := (line "foot 50" ++ line "neck 90")%string in
  receivedLines [SerialEvent burst] = 2%nat /\
  stringComplete (serialEvent burst initial) = true /\
  forall (T : Z) (times : list Z),
    printed (snd (run (SerialEvent burst :: map Loop (T :: times)) initial))
    = ["K"].
Proof.
  cbn zeta. split; [reflexivity|]. split; [reflexivity|].
  intros T times. rewrite run_cons. cbn [step fst snd app].
  set (s1 := serialEvent (line "foot 50" ++ line "neck 90") initial).
  rewrite map_cons, run_cons. cbn [step fst snd].
  destruct (loop_prints (millis T) s1) as [Hp Hf].
  rewrite printed_app, Hp. change (stringComplete s1) with true.
  assert (Hidle : currentJawAngle (fst (loop (millis T) s1))
                  = targetJawAngle (fst (loop (millis T) s1))).
  { destruct (loop_idle (millis T) s1 eq_refl) as [_ Hc].
    rewrite Hc. rewrite loop_eq, serialCommandProcessing_eq.
    destruct (smooth_frame (millis T) s1) as (Ht & Hi & Hs).
    rewrite Hs, Hi. change (stringComplete s1) with true. cbn [fst].
    change (inputString s1) with "foot 50neck 90".
    rewrite (processCommand_other "foot 50neck 90" _ "foot") by reflexivity.
    cbn [fst targetJawAngle set_stringComplete set_inputString].
    rewrite Ht. reflexivity. }
  destruct (idle_silent times (fst (loop (millis T) s1)) Hf Hidle) as (-> & _).
  reflexivity.
Qed.

(** C4. The line "neckonly", which has no space, and the command "neck 90"
    that follows it wait in the receive buffer together and are read by one
    call of [serialEvent]: two lines are received, and the buffer holds
    "neckonlyneck 90". The loop dispatches that one string, whose channel
    word names no servo: nothing is ever written, however many iterations
    follow, whereas the command received without the malformed line before
    it writes the neck to 90. Likewise the lines "jaw" and " 50", neither of
    which holds a space once trimmed, are read together as "jaw 50", and the
    jaw target, 30 until then, becomes 50. *)
Theorem malformed_line_merged_with_next :
  let burst := (line "neckonly" ++ line "neck 90")%string in
  let pair := (line "jaw" ++ line " 50")%string in
  contains space (trim "neckonly") = false /\
  receivedLines [SerialEvent burst] = 2%nat /\
  inputString (serialEvent burst initial) = "neckonlyneck 90" /\
  (forall (T : Z) (times : list Z),
      servoWrites
        (snd (run (SerialEvent burst :: map Loop (T :: times)) initial)) = [] /\
      servoWrites
        (snd (run (SerialEvent (line "neck 90") :: map Loop (T :: times)) initial))
      = [(servoNeck, 90)]) /\
  contains space (trim "jaw") = false /\
  contains space (trim " 50") = false /\
  inputString (serialEvent pair initial) = "jaw 50" /\
  targetJawAngle initial = 30 /\
  forall (T : Z),
    targetJawAngle (fst (run [SerialEvent pair; Loop T] initial)) = 50.
Proof.
  cbn zeta.
  split; [reflexivity|]. split; [reflexivity|]. split; [reflexivity|].
  split; [|repeat (split; [reflexivity|])].
  - intros T times. split.
    + rewrite run_cons. cbn [step fst snd app].
      change (serialEvent (line "neckonly" ++ line "neck 90") initial)
        with (mkState 30 30 0 "neckonlyneck 90" true).
      set (s1 := mkState 30 30 0 "neckonlyneck 90" true).
      rewrite map_cons, run_cons. cbn [step].
      assert (Hloop : exists last,
                 loop (millis T) s1
                 = (mkState 30 30 last "" false, [SerialPrintln "K"])).
      { rewrite loop_eq, serialCommandProcessing_eq.
        destruct (elapsed (millis T) s1) eqn:He.
        - rewrite (smooth_idle _ _ He eq_refl). exists (millis T). reflexivity.
        - rewrite (smooth_waiting _ _ He). exists 0. reflexivity. }
      destruct Hloop as [last ->]. cbn [fst snd].
      destruct (idle_silent times (mkState 30 30 last "" false) eq_refl eq_refl)
        as (-> & _). reflexivity.
    + rewrite run_cons. cbn [step fst snd app].
      change (serialEvent (line "neck 90") initial)
        with (mkState 30 30 0 "neck 90" true).
      set (s1 := mkState 30 30 0 "neck 90" true).
      rewrite map_cons, run_cons. cbn [step].
      assert (Hloop : exists last,
                 loop (millis T) s1
                 = (mkState 30 30 last "" false,
                    [ServoWrite servoNeck 90; SerialPrintln "K"])).
      { rewrite loop_eq, serialCommandProcessing_eq.
        destruct (elapsed (millis T) s1) eqn:He.
        - rewrite (smooth_idle _ _ He eq_refl). exists (millis T). reflexivity.
        - rewrite (smooth_waiting _ _ He). exists 0. reflexivity. }
      destruct Hloop as [last ->]. cbn [fst snd].
      destruct (idle_silent times (mkState 30 30 last "" false) eq_refl eq_refl)
        as (-> & _). reflexivity.
  - intros T. rewrite !run_cons. cbn [step run fst snd app].
    change (serialEvent (line "jaw" ++ line " 50") initial)
      with (mkState 30 30 0 "jaw 50" true).
    set (s1 := mkState 30 30 0 "jaw 50" true).
    rewrite loop_eq, serialCommandProcessing_eq.
    destruct (elapsed (millis T) s1) eqn:He.
    + rewrite (smooth_idle _ _ He eq_refl). reflexivity.
    + rewrite (smooth_waiting _ _ He). reflexivity.
Qed.

(** ** End-to-end scenarios *)

(** "jaw 60" from power-up: the dispatching iteration acknowledges, and the
    thirty iterations that follow, one quantum apart, write 31 up to 60. *)
Example scenario_jaw_60 :
  let inputs :=
    SerialEvent (line "jaw 60")
    :: map (fun i => Loop (500 + 6 * Z.of_nat i)) (seq 0 31) in
  writesTo servoJaw (snd (boot inputs)) = 30 :: map Z.of_nat (seq 31 30) /\
  printed (snd (boot inputs)) = ["K"] /\
  currentJawAngle (fst (boot inputs)) = 60.
Proof. vm_compute. repeat split. Qed.

(** "foot 50": acknowledged, nothing written. *)
Example scenario_foot_50 :
  snd (run [SerialEvent (line "foot 50"); Loop 501] initial)
  = [SerialPrintln "K"].
Proof. vm_compute. reflexivity. Qed.

(** An angle beyond the range of [int] is narrowed before it is clamped. *)
Example narrowed_angle :
  snd (processCommand "eye 40000" initial) = [ServoWrite servoEye 0] /\
  snd (processCommand "eye -40000" initial) = [ServoWrite servoEye 180].
Proof. vm_compute. split; reflexivity. Qed.

(** * Beyond the claims

    What the rest of the two sketches shows: the text the dispatcher
    accepts, the reader, the jaw servo over a whole run, the clock, and the
    calibration sketch. *)

(** ** Decimal numerals and [toInt] *)

Lemma to_long_small (x : Z) : - 2 ^ 31 <= x < 2 ^ 31 -> to_long x = x.
Proof.
  unfold to_long, wrap_signed. intros H.
  change (2 ^ (32 - 1)) with 2147483648. change (2 ^ 32) with 4294967296.
  change (2 ^ 31) with 2147483648 in H.
  rewrite Z.mod_small; lia.
Qed.

Lemma of_uint_acc_ge (d : Decimal.uint) : forall acc,
  (acc <= Nat.of_uint_acc d acc)%nat.
Proof.
  induction d as [ | d IHd | d IHd | d IHd | d IHd | d IHd | d IHd | d IHd | d IHd | d IHd | d IHd ];
    intros acc; cbn [Nat.of_uint_acc]; [lia|..];
    (eapply Nat.le_trans; [|apply IHd]);
    rewrite Nat.tail_mul_spec; lia.
Qed.

Lemma digits_step (c : ascii) (k acc : Z) (r : string) :
  isdigit c = true -> code c - 48 = k ->
  - 2 ^ 31 <= acc * 10 + k < 2 ^ 31 ->
  digits acc (String c r) = digits (acc * 10 + k) r.
Proof.
  intros Hd Hk Hb. cbn [digits]. rewrite Hd, Hk, (to_long_small _ Hb).
  reflexivity.
Qed.

(** The digits of a numeral, read from the left with [acc] in hand. *)
Lemma digits_uint (d : Decimal.uint) : forall (acc : nat) (tail : string),
  stops_number tail = true ->
  Z.of_nat (Nat.of_uint_acc d acc) < 2 ^ 31 ->
  digits (Z.of_nat acc) (DecimalString.NilEmpty.string_of_uint d ++ tail)
  = Z.of_nat (Nat.of_uint_acc d acc).
Proof.
  induction d as [ | d IHd | d IHd | d IHd | d IHd | d IHd | d IHd | d IHd | d IHd | d IHd | d IHd ];
    intros acc tail Htail Hmax;
    cbn [DecimalString.NilEmpty.string_of_uint append Nat.of_uint_acc] in *.
  1: { destruct tail as [|c r]; [reflexivity|]. simpl in Htail.
       cbn [digits]. apply negb_true_iff in Htail. rewrite Htail. reflexivity. }
  all: match goal with
       | |- digits _ (String ?c _) = Z.of_nat (Nat.of_uint_acc _ ?a) =>
           pose proof (of_uint_acc_ge d a) as Hge;
           rewrite <- (IHd a tail Htail Hmax);
           rewrite Nat.tail_mul_spec in *;
           change (2 ^ 31) with 2147483648 in *;
           let k := eval vm_compute in (code c - 48) in
           rewrite (digits_step c k (Z.of_nat acc));
           [f_equal | reflexivity | reflexivity
            | change (2 ^ 31) with 2147483648 ]; lia
       end.
Qed.

Lemma skip_space_pad (pad s : string) :
  all isspace pad = true -> skip_space (pad ++ s) = skip_space s.
Proof.
  induction pad as [|c r IH]; intros H; [reflexivity|].
  simpl in H. apply andb_true_iff in H as [Hc Hr].
  cbn [append skip_space]. rewrite Hc. apply IH, Hr.
Qed.

Lemma atol_digit_start (c : ascii) (r : string) :
  isdigit c = true -> atol (String c r) = digits 0 (String c r).
Proof.
  destruct c as [[] [] [] [] [] [] [] []]; intros H;
    try (vm_compute in H; discriminate H); reflexivity.
Qed.

Lemma uint_starts_with_digit (n : nat) :
  exists c r, DecimalString.NilEmpty.string_of_uint (Nat.to_uint n) = String c r
              /\ isdigit c = true.
Proof.
  pose proof (DecimalNat.Unsigned.of_to n) as Hn.
  destruct (Nat.to_uint n) as [ | d | d | d | d | d | d | d | d | d | d ] eqn:Hd;
    cbn [DecimalString.NilEmpty.string_of_uint];
    try (eexists; eexists; split; [reflexivity | reflexivity]).
  cbn in Hn. subst n. discriminate Hd.
Qed.

Lemma digits_nat (n : nat) (tail : string) :
  stops_number tail = true -> Z.of_nat n < 2 ^ 31 ->
  digits 0 (DecimalString.NilEmpty.string_of_uint (Nat.to_uint n) ++ tail)
  = Z.of_nat n.
Proof.
  intros Htail Hmax.
  pose proof (digits_uint (Nat.to_uint n) 0 tail Htail) as H.
  change (Nat.of_uint_acc (Nat.to_uint n) 0) with (Nat.of_uint (Nat.to_uint n)) in H.
  rewrite DecimalNat.Unsigned.of_to in H. apply H, Hmax.
Qed.

(** [toInt] reads back what [Serial.print] writes: white space may come
    first, and anything that does not start with a digit may follow. *)
Lemma atol_decimal (z : Z) (pad tail : string) :
  all isspace pad = true -> stops_number tail = true ->
  - 2 ^ 31 < z < 2 ^ 31 ->
  atol (pad ++ decimal z ++ tail) = z.
Proof.
  intros Hpad Htail Hz. unfold atol at 1. rewrite (skip_space_pad _ _ Hpad).
  fold (atol (decimal z ++ tail)). unfold decimal.
  destruct (z <? 0) eqn:Hneg.
  - apply Z.ltb_lt in Hneg. cbn [append].
    change (atol (String "-" ?r)) with (to_long (- digits 0 r)).
    rewrite digits_nat by (try assumption; lia).
    rewrite to_long_small; lia.
  - apply Z.ltb_ge in Hneg.
    destruct (uint_starts_with_digit (Z.to_nat z)) as (c & r & Hs & Hc).
    pose proof (digits_nat (Z.to_nat z) tail Htail ltac:(lia)) as Hd.
    rewrite Hs in *. cbn [append] in *.
    rewrite (atol_digit_start c _ Hc), Hd. lia.
Qed.

(** *** Splitting a command at its first space *)

Lemma length_append (a b : string) :
  String.length (a ++ b) = (String.length a + String.length b)%nat.
Proof. induction a as [|c a IH]; simpl; [reflexivity | rewrite IH; reflexivity]. Qed.

Lemma substring_all (s : string) : String.substring 0 (String.length s) s = s.
Proof. induction s as [|c s IH]; simpl; [reflexivity | rewrite IH; reflexivity]. Qed.

Lemma substring_prefix (a b : string) :
  String.substring 0 (String.length a) (a ++ b) = a.
Proof.
  induction a as [|c a IH]; simpl.
  - destruct b; reflexivity.
  - rewrite IH. reflexivity.
Qed.

Lemma substring_skip (a b : string) (m : nat) :
  String.substring (String.length a) m (a ++ b) = String.substring 0 m b.
Proof. induction a as [|c a IH]; simpl; [reflexivity | exact IH]. Qed.

Lemma c_str_plain (s : string) : all plain s = true -> c_str s = s.
Proof.
  induction s as [|c r IH]; intros H; [reflexivity|].
  simpl in H. apply andb_true_iff in H as [Hc Hr].
  unfold plain in Hc. apply andb_true_iff in Hc as [_ Hnul].
  apply negb_true_iff in Hnul. cbn [c_str]. rewrite Hnul, (IH Hr). reflexivity.
Qed.

Lemma trim_begin_plain (c : ascii) (r : string) :
  plain c = true -> trim_begin (String c r) = String c r.
Proof.
  unfold plain. intros H. apply andb_true_iff in H as [Hsp _].
  apply negb_true_iff in Hsp. cbn [trim_begin]. rewrite Hsp. reflexivity.
Qed.

Lemma trim_end_keep (x y : string) :
  ends_plain y -> y <> "" -> trim_end (x ++ y) = (x ++ y)%string.
Proof.
  intros Hy Hne. induction x as [|c x IH]; [exact Hy|].
  cbn [append trim_end]. rewrite IH.
  destruct (x ++ y)%string eqn:Hxy; [|reflexivity].
  destruct x; [contradiction | discriminate Hxy].
Qed.

Lemma trim_end_no_space (s : string) :
  all (fun c => negb (isspace c)) s = true -> trim_end s = s.
Proof.
  induction s as [|c r IH]; intros H; [reflexivity|].
  simpl in H. apply andb_true_iff in H as [Hc Hr].
  apply negb_true_iff in Hc. cbn [trim_end]. rewrite (IH Hr), Hc.
  destruct r; reflexivity.
Qed.

Lemma indexOf_word (tok rest : string) : forall i,
  all plain tok = true ->
  indexOf_from space (tok ++ String space rest) i = i + len tok.
Proof.
  unfold len. induction tok as [|c r IH]; intros i H.
  - simpl. lia.
  - simpl in H. apply andb_true_iff in H as [Hc Hr].
    unfold plain in Hc. apply andb_true_iff in Hc as [Hsp Hnul].
    apply negb_true_iff in Hnul.
    assert (Hne : Ascii.eqb c space = false).
    { destruct (Ascii.eqb c space) eqn:He; [|reflexivity].
      apply Ascii.eqb_eq in He. subst c. discriminate Hsp. }
    cbn [append indexOf_from]. rewrite Hne, Hnul, (IH _ Hr).
    cbn [String.length]. lia.
Qed.

Lemma digits_c_str (s : string) : forall acc, digits acc (c_str s) = digits acc s.
Proof.
  induction s as [|c r IH]; intros acc; [reflexivity|].
  cbn [c_str]. destruct (Ascii.eqb c NUL) eqn:Hn.
  - apply Ascii.eqb_eq in Hn. subst c. reflexivity.
  - cbn [digits]. destruct (isdigit c); [apply IH | reflexivity].
Qed.

Lemma skip_space_c_str (s : string) : skip_space (c_str s) = c_str (skip_space s).
Proof.
  induction s as [|c r IH]; [reflexivity|].
  cbn [c_str skip_space]. destruct (Ascii.eqb c NUL) eqn:Hn.
  - apply Ascii.eqb_eq in Hn. subst c. reflexivity.
  - cbn [skip_space]. destruct (isspace c); [exact IH|].
    cbn [c_str]. rewrite Hn. reflexivity.
Qed.

(** [toInt] reads the character buffer: nothing after a NUL counts. *)
Lemma atol_c_str (s : string) : atol (c_str s) = atol s.
Proof.
  unfold atol. rewrite skip_space_c_str.
  destruct (skip_space s) as [|c r]; [reflexivity|].
  cbn [c_str]. destruct (Ascii.eqb c NUL) eqn:Hn.
  - apply Ascii.eqb_eq in Hn. subst c. reflexivity.
  - destruct c as [[] [] [] [] [] [] [] []];
      try (rewrite digits_c_str; reflexivity);
      try (cbn [digits]; 
           match goal with |- context [isdigit ?c] =>
             let b := eval vm_compute in (isdigit c) in
             change (isdigit c) with b; cbv iota end;
           try rewrite digits_c_str; reflexivity).
Qed.

Lemma substring_after (a b : string) (c : ascii) (m : nat) :
  String.substring (S (String.length a)) m (a ++ String c b)
  = String.substring 0 m b.
Proof. induction a as [|c' a IH]; simpl; [reflexivity | exact IH]. Qed.

(** A word, a space and an argument: [trim] keeps the text, the first
    space is the one after the word, and the two [substring] calls give the
    word and the argument. *)
Lemma split_at_space (tok arg : string) :
  tok <> "" -> all plain tok = true -> arg <> "" -> ends_plain arg ->
  let s := (tok ++ String space arg)%string in
  trim s = s /\ indexOf s space = len tok /\ 0 < len tok /\ 1 < len s /\
  substring s 0 (len tok) = tok /\
  substring_from s (len tok + 1) = c_str arg.
Proof.
  intros Htok Hplain Harg Hend s.
  assert (Hlen : len s = len tok + 1 + len arg).
  { unfold len, s. rewrite length_append. cbn [String.length]. lia. }
  assert (Hlarg : 0 < len arg)
    by (unfold len; destruct arg; [contradiction|simpl; lia]).
  assert (Hltok : 0 < len tok)
    by (unfold len; destruct tok; [contradiction|simpl; lia]).
  split.
  { unfold trim, s. destruct tok as [|c r]; [contradiction|].
    simpl in Hplain. apply andb_true_iff in Hplain as [Hc _].
    cbn [append]. rewrite (trim_begin_plain _ _ Hc).
    change (String c (r ++ String space arg))
      with (String c r ++ String space arg)%string.
    apply trim_end_keep; [|discriminate].
    apply (trim_end_keep (String space "") arg Hend Harg). }
  split; [unfold indexOf, s; rewrite (indexOf_word _ _ 0 Hplain); lia|].
  split; [exact Hltok|]. split; [lia|]. split.
  - unfold substring.
    replace (len tok <? 0) with false by (symmetry; apply Z.ltb_ge; lia).
    replace (len s <=? 0) with false by (symmetry; apply Z.leb_gt; lia).
    replace (len s <? len tok) with false by (symmetry; apply Z.ltb_ge; lia).
    rewrite Z.sub_0_r. unfold len at 1. rewrite Nat2Z.id. cbn [Z.to_nat].
    unfold s. rewrite substring_prefix. apply c_str_plain, Hplain.
  - unfold substring_from, substring.
    replace (len s <? len tok + 1) with false by (symmetry; apply Z.ltb_ge; lia).
    replace (len s <=? len tok + 1) with false by (symmetry; apply Z.leb_gt; lia).
    rewrite Z.ltb_irrefl.
    replace (Z.to_nat (len tok + 1)) with (S (String.length tok))
      by (unfold len; lia).
    replace (Z.to_nat (len s - (len tok + 1))) with (String.length arg)
      by (rewrite Hlen; unfold len; lia).
    unfold s. rewrite substring_after, substring_all. reflexivity.
Qed.

(** A command made of a word, a space and an argument: the word is the
    channel token and the angle is read from the argument. *)
Lemma command_split (tok arg : string) :
  tok <> "" -> all plain tok = true -> arg <> "" -> ends_plain arg ->
  channelToken (tok ++ String space arg) = Some tok /\
  parsedAngle (tok ++ String space arg) = to_int (toInt arg).
Proof.
  intros Htok Hplain Harg Hend.
  destruct (split_at_space tok arg Htok Hplain Harg Hend)
    as (Htrim & Hidx & Hpos & _ & Hsub & Hfrom).
  assert (Hneq : (len tok =? -1) = false) by (apply Z.eqb_neq; lia).
  split.
  - unfold channelToken. rewrite Htrim, Hidx, Hneq, Hsub. reflexivity.
  - unfold parsedAngle. rewrite Htrim, Hidx, Hfrom. unfold toInt.
    rewrite atol_c_str. reflexivity.
Qed.

Lemma plain_tolower (c : ascii) : plain (tolower c) = plain c.
Proof. destruct c as [[] [] [] [] [] [] [] []]; reflexivity. Qed.

(** A token that matches a name made of plain characters is made of plain
    characters, and is as long as the name. *)
Lemma matching_token_plain (tok name : string) :
  equalsIgnoreCase tok name = true -> all plain name = true ->
  all plain tok = true /\ (name <> "" -> tok <> "").
Proof.
  revert name. induction tok as [|c r IH]; intros [|c' r'] He Hn;
    simpl in He; try discriminate He.
  - split; [reflexivity | intros H; contradiction].
  - apply andb_true_iff in He as [Hc Hr]. apply Ascii.eqb_eq in Hc.
    simpl in Hn. apply andb_true_iff in Hn as [Hn1 Hn2].
    destruct (IH r' Hr Hn2) as [IHp _].
    split; [|discriminate].
    simpl. rewrite IHp, andb_true_r.
    rewrite <- plain_tolower, Hc, plain_tolower. exact Hn1.
Qed.

Lemma decimal_ends_plain (z : Z) (tail : string) :
  ends_plain tail ->
  ends_plain (decimal z ++ tail) /\ (decimal z ++ tail)%string <> "".
Proof.
  intros Htail.
  assert (Hd : forall d, all (fun c => negb (isspace c))
                        (DecimalString.NilEmpty.string_of_uint d) = true)
    by (induction d; simpl; auto).
  assert (Hne : decimal z <> "").
  { unfold decimal. destruct (z <? 0); [discriminate|].
    destruct (uint_starts_with_digit (Z.to_nat z)) as (c & r & -> & _).
    discriminate. }
  assert (Hdec : ends_plain (decimal z)).
  { apply trim_end_no_space. unfold decimal.
    destruct (z <? 0); [simpl; apply Hd | apply Hd]. }
  split.
  - destruct tail as [|c r].
    + rewrite append_empty_r. exact Hdec.
    + apply trim_end_keep; [exact Htail | discriminate].
  - destruct (decimal z); [contradiction | discriminate].
Qed.

(** The angle a well-formed command carries: the channel word, one space,
    optional further white space, and the decimal numeral of an [int];
    whatever follows the numeral, if it does not start with a digit, is
    not read. *)
Lemma well_formed_command (tok pad tail : string) (z : Z) :
  tok <> "" -> all plain tok = true ->
  all isspace pad = true -> stops_number tail = true -> ends_plain tail ->
  is_int z ->
  channelToken (tok ++ String space (pad ++ decimal z ++ tail)) = Some tok /\
  clampedAngle (tok ++ String space (pad ++ decimal z ++ tail))
  = constrain z MIN_ANGLE MAX_ANGLE.
Proof.
  intros Htok Hplain Hpad Hstop Htail Hz.
  destruct (decimal_ends_plain z tail Htail) as [Hend Hne].
  assert (Harg : (pad ++ decimal z ++ tail)%string <> "").
  { destruct pad; [exact Hne | discriminate]. }
  assert (Hend' : ends_plain (pad ++ decimal z ++ tail))
    by (apply trim_end_keep; assumption).
  destruct (command_split tok _ Htok Hplain Harg Hend') as [Hc Ha].
  split; [exact Hc|].
  unfold clampedAngle. rewrite Ha. unfold toInt.
  assert (Hlong : - 2 ^ 31 < z < 2 ^ 31).
  { unfold is_int, INT_MIN, INT_MAX in Hz.
    change (2 ^ 15) with 32768 in Hz. change (2 ^ 31) with 2147483648. lia. }
  rewrite (atol_decimal z pad tail Hpad Hstop Hlong), (to_int_small z Hz).
  reflexivity.
Qed.

(** ** White space around a line *)

Lemma trim_begin_pad (w x : string) :
  all isspace w = true -> trim_begin (w ++ x) = trim_begin x.
Proof.
  induction w as [|c r IH]; intros H; [reflexivity|].
  simpl in H. apply andb_true_iff in H as [Hc Hr].
  cbn [append trim_begin]. rewrite Hc. apply IH, Hr.
Qed.

Lemma trim_end_blank (w : string) : all isspace w = true -> trim_end w = "".
Proof.
  induction w as [|c r IH]; intros H; [reflexivity|].
  simpl in H. apply andb_true_iff in H as [Hc Hr].
  cbn [trim_end]. rewrite (IH Hr), Hc. reflexivity.
Qed.

Lemma trim_end_pad (x w : string) :
  all isspace w = true -> trim_end (x ++ w) = trim_end x.
Proof.
  intros Hw. induction x as [|c r IH]; [apply trim_end_blank, Hw|].
  cbn [append trim_end]. rewrite IH. reflexivity.
Qed.

Lemma trim_begin_cases (x : string) :
  (trim_begin x = "" /\ all isspace x = true) \/
  (exists c r, trim_begin x = String c r /\ isspace c = false /\
               forall w, trim_begin (x ++ w) = (String c r ++ w)%string).
Proof.
  induction x as [|c r IH].
  - left. split; reflexivity.
  - cbn [trim_begin all append]. destruct (isspace c) eqn:Hc; cbn [andb].
    + destruct IH as [[H1 H2] | (c' & r' & H1 & H2 & H3)].
      * left. split; [exact H1 | exact H2].
      * right. exists c', r'. split; [exact H1|]. split; [exact H2|].
        exact H3.
    + right. exists c, r. split; [reflexivity|]. split; [exact Hc|].
      intros w. reflexivity.
Qed.

(** White space before and after a line does not count: [trim] gives the
    same with or without it. *)
Lemma trim_padded (w1 x w2 : string) :
  all isspace w1 = true -> all isspace w2 = true ->
  trim (w1 ++ x ++ w2) = trim x.
Proof.
  intros H1 H2. unfold trim. rewrite (trim_begin_pad _ _ H1).
  destruct (trim_begin_cases x) as [[Hx Hall] | (c & r & Hx & _ & Happ)].
  - rewrite Hx. cbn [trim_end].
    assert (Hb : all isspace (x ++ w2) = true).
    { clear Hx. induction x as [|c r IH]; [exact H2|].
      simpl in Hall. apply andb_true_iff in Hall as [Hc Hr].
      cbn [append all]. rewrite Hc. apply IH, Hr. }
    destruct (trim_begin_cases (x ++ w2)) as [[-> _] | (c & r & Hxw & Hc & _)];
      [reflexivity|].
    exfalso. clear - Hb Hxw Hc.
    induction (x ++ w2)%string as [|c' r' IH]; [discriminate Hxw|].
    simpl in Hb. apply andb_true_iff in Hb as [Hc' Hr'].
    cbn [trim_begin] in Hxw. rewrite Hc' in Hxw. apply (IH Hr' Hxw).
  - rewrite Happ, Hx. apply trim_end_pad, H2.
Qed.

(** X3. The dispatcher does not see white space around the command: a
    carriage return before the line feed, blanks before the channel word. *)
Theorem dispatch_ignores_padding :
  forall (w1 command w2 : string) (s : State),
    all isspace w1 = true -> all isspace w2 = true ->
    processCommand (w1 ++ command ++ w2) s = processCommand command s.
Proof.
  intros w1 command w2 s H1 H2.
  rewrite !processCommand_cases.
  unfold channelToken, clampedAngle, parsedAngle.
  rewrite (trim_padded w1 command w2 H1 H2). reflexivity.
Qed.

Lemma dispatch_ignores_padding_witness :
  processCommand ("  " ++ "neck 90" ++ String "013" "") initial
  = (initial, [ServoWrite servoNeck 90]).
Proof.
  rewrite (dispatch_ignores_padding "  " "neck 90" (String "013" "") initial
             eq_refl eq_refl).
  reflexivity.
Defined.

(** ** The dispatcher on concrete command text *)

Lemma digits_stops (r : string) (acc : Z) :
  stops_number r = true -> digits acc r = acc.
Proof.
  destruct r as [|c r]; [reflexivity|]. cbn [stops_number digits].
  intros H. apply negb_true_iff in H. rewrite H. reflexivity.
Qed.

Lemma atol_no_number (arg : string) : no_number arg = true -> atol arg = 0.
Proof.
  destruct arg as [|c r]; [reflexivity|].
  destruct c as [[] [] [] [] [] [] [] []]; intros H;
    try (vm_compute in H; discriminate H);
    try reflexivity.
  - change (digits 0 r = 0). apply digits_stops, H.
  - change (to_long (- digits 0 r) = 0). rewrite (digits_stops r 0 H).
    reflexivity.
Qed.

Ltac channel_word H :=
  destruct (matching_token_plain _ _ H eq_refl) as [?Hplain ?Hne];
  specialize (Hne ltac:(discriminate)).

(** X1. A well-formed command does what it says. For a channel word in any
    letter case, followed by a space, optional further white space and the
    decimal numeral of an [int] z (and then, possibly, text that does not
    start with a digit and does not end in white space), the dispatcher
    writes z clamped to [0, 180] to that servo, or makes it the jaw target;
    for z within [0, 180] that is z itself. *)
Theorem dispatch_well_formed :
  forall (tok pad tail : string) (z : Z) (s : State),
    all isspace pad = true -> stops_number tail = true -> ends_plain tail ->
    is_int z ->
    let command := (tok ++ String space (pad ++ decimal z ++ tail))%string in
    let angle := constrain z MIN_ANGLE MAX_ANGLE in
    (0 <= z <= 180 -> angle = z) /\
    (equalsIgnoreCase tok "neck" = true ->
     processCommand command s = (s, [ServoWrite servoNeck angle])) /\
    (equalsIgnoreCase tok "jaw" = true ->
     processCommand command s = (set_targetJawAngle s angle, [])) /\
    (equalsIgnoreCase tok "eye" = true ->
     processCommand command s = (s, [ServoWrite servoEye angle])) /\
    (equalsIgnoreCase tok "z" = true ->
     processCommand command s = (s, [ServoWrite servoZ angle])).
Proof.
  intros tok pad tail z s Hpad Hstop Htail Hz command angle.
  split; [intros Hr; apply constrain_fixes_range, Hr|].
  repeat split; intros Hm; channel_word Hm;
    destruct (well_formed_command tok pad tail z Hne Hplain Hpad Hstop Htail Hz)
      as [Htok Hang]; fold command in Htok, Hang; fold angle in Hang;
    rewrite <- Hang.
  - apply (processCommand_neck command s tok Htok Hm).
  - apply (processCommand_jaw command s tok Htok Hm).
  - apply (processCommand_eye command s tok Htok Hm).
  - apply (processCommand_z command s tok Htok Hm).
Qed.

Lemma dispatch_well_formed_witness :
  processCommand "Neck  -12 degrees" initial = (initial, [ServoWrite servoNeck 0])
  /\ processCommand "EYE 135" initial = (initial, [ServoWrite servoEye 135]).
Proof.
  assert (Hint : forall z, -200 <= z <= 200 -> is_int z).
  { intros z Hz. unfold is_int, INT_MIN, INT_MAX.
    change (2 ^ 15) with 32768. lia. }
  split.
  - destruct (dispatch_well_formed "Neck" " " " degrees" (-12) initial
                eq_refl eq_refl eq_refl (Hint (-12) ltac:(lia)))
      as (_ & Hneck & _).
    exact (Hneck eq_refl).
  - destruct (dispatch_well_formed "EYE" "" "" 135 initial
                eq_refl eq_refl eq_refl (Hint 135 ltac:(lia)))
      as (_ & _ & _ & Heye & _).
    exact (Heye eq_refl).
Defined.

(** X2. An argument without a number drives the channel to 0. When the text
    after the first space starts with something that is neither white
    space, a sign nor a digit (or with a sign that no digit follows),
    [toInt] gives 0: neck, eye or z is written 0, the jaw target becomes
    0. *)
Theorem dispatch_without_number :
  forall (tok arg : string) (s : State),
    arg <> "" -> ends_plain arg -> no_number arg = true ->
    let command := (tok ++ String space arg)%string in
    (equalsIgnoreCase tok "neck" = true ->
     processCommand command s = (s, [ServoWrite servoNeck 0])) /\
    (equalsIgnoreCase tok "jaw" = true ->
     processCommand command s = (set_targetJawAngle s 0, [])) /\
    (equalsIgnoreCase tok "eye" = true ->
     processCommand command s = (s, [ServoWrite servoEye 0])) /\
    (equalsIgnoreCase tok "z" = true ->
     processCommand command s = (s, [ServoWrite servoZ 0])).
Proof.
  intros tok arg s Harg Hend Hno command.
  assert (Hzero : forall t, t <> "" -> all plain t = true ->
                            channelToken (t ++ String space arg) = Some t /\
                            clampedAngle (t ++ String space arg) = 0).
  { intros t Hne Hplain.
    destruct (command_split t arg Hne Hplain Harg Hend) as [Htok Hang].
    split; [exact Htok|]. unfold clampedAngle. rewrite Hang. unfold toInt.
    rewrite (atol_no_number arg Hno). reflexivity. }
  repeat split; intros Hm; channel_word Hm;
    destruct (Hzero tok Hne Hplain) as [Htok Hang]; fold command in Htok, Hang;
    rewrite <- Hang.
  - apply (processCommand_neck command s tok Htok Hm).
  - apply (processCommand_jaw command s tok Htok Hm).
  - apply (processCommand_eye command s tok Htok Hm).
  - apply (processCommand_z command s tok Htok Hm).
Qed.

Lemma dispatch_without_number_witness :
  processCommand "z up" initial = (initial, [ServoWrite servoZ 0]).
Proof.
  destruct (dispatch_without_number "z" "up" initial
              ltac:(discriminate) eq_refl eq_refl)
    as (_ & _ & _ & Hz).
  exact (Hz eq_refl).
Defined.

(** ** The reader *)

Lemma append_assoc_string (a b c : string) :
  ((a ++ b) ++ c)%string = (a ++ (b ++ c))%string.
Proof. induction a as [|x a IH]; simpl; [reflexivity | rewrite IH; reflexivity]. Qed.

Lemma serialEvent_closed_form (bytes : string) : forall s,
  serialEvent bytes s
  = mkState (currentJawAngle s) (targetJawAngle s) (lastJawUpdateTime s)
            (inputString s ++ withoutNewlines bytes)
            (stringComplete s || contains newline bytes).
Proof.
  induction bytes as [|c r IH]; intros s.
  - simpl. rewrite append_empty_r, orb_false_r. destruct s; reflexivity.
  - cbn [serialEvent withoutNewlines contains]. rewrite IH.
    destruct (Ascii.eqb c newline); cbn.
    + rewrite orb_true_r. reflexivity.
    + rewrite append_char_assoc. reflexivity.
Qed.

(** X4. [serialEvent] in closed form: the jaw state is untouched, the bytes
    read join the buffer in order with the terminators left out, and the
    flag is raised by a terminator and never lowered. *)
Theorem serialEvent_reads :
  forall (bytes : string) (s : State),
    serialEvent bytes s
    = mkState (currentJawAngle s) (targetJawAngle s) (lastJawUpdateTime s)
              (inputString s ++ withoutNewlines bytes)
              (stringComplete s || contains newline bytes).
Proof. intros bytes s. apply serialEvent_closed_form. Qed.

(** X5. Reading the bytes in one call or in two makes no difference. *)
Theorem serialEvent_chunks :
  forall (a b : string) (s : State),
    serialEvent (a ++ b) s = serialEvent b (serialEvent a s).
Proof.
  induction a as [|c r IH]; intros b s; [reflexivity|].
  cbn [append serialEvent]. apply IH.
Qed.

Lemma withoutNewlines_none (bytes : string) :
  contains newline bytes = false -> withoutNewlines bytes = bytes.
Proof.
  induction bytes as [|c r IH]; intros H; [reflexivity|].
  simpl in H. apply orb_false_iff in H as [Hc Hr].
  cbn [withoutNewlines]. rewrite Hc, (IH Hr). reflexivity.
Qed.

Lemma linesFrom_drain (bytes : string) : forall (cur text : string),
  oneLineAtMost bytes = true ->
  linesFrom cur (bytes ++ text)
  = if contains newline bytes
    then (cur ++ withoutNewlines bytes)%string :: linesFrom "" text
    else linesFrom (cur ++ withoutNewlines bytes) text.
Proof.
  induction bytes as [|c r IH]; intros cur text H.
  - simpl. rewrite append_empty_r. reflexivity.
  - cbn [oneLineAtMost] in H. cbn [append linesFrom contains withoutNewlines].
    destruct (Ascii.eqb c newline) eqn:Hc.
    + destruct r; [|discriminate H]. simpl. rewrite append_empty_r. reflexivity.
    + cbn [orb]. rewrite (IH _ _ H), append_char_assoc. reflexivity.
Qed.

(** What an iteration does to the serial side. *)
Lemma loop_serial_side currentTime s :
  inputString (fst (loop currentTime s))
  = (if stringComplete s then "" else inputString s) /\
  stringComplete (fst (loop currentTime s)) = false.
Proof.
  rewrite loop_eq, serialCommandProcessing_eq.
  destruct (smooth_frame currentTime s) as (_ & Hi & Hf).
  rewrite Hf. destruct (stringComplete s); cbn [fst]; [split; reflexivity|].
  rewrite Hi, Hf. split; reflexivity.
Qed.

Lemma paced_dispatch_gen (inputs : list Input) : forall (s : State) (T : Z),
  paced (stringComplete s) inputs = true ->
  dispatched (inputs ++ [Loop T]) s
  = if stringComplete s
    then inputString s :: linesFrom "" (received inputs)
    else linesFrom (inputString s) (received inputs).
Proof.
  induction inputs as [|i rest IH]; intros s T Hp.
  - simpl. destruct (stringComplete s); reflexivity.
  - destruct i as [T'|bytes].
    + cbn [paced] in Hp. cbn [app dispatched received step].
      destruct (loop_serial_side (millis T') s) as [Hi Hf].
      rewrite <- Hf in Hp. rewrite (IH _ T Hp), Hf, Hi.
      destruct (stringComplete s); reflexivity.
    + cbn [paced] in Hp.
      apply andb_true_iff in Hp as [Hp Hrest].
      apply andb_true_iff in Hp as [Hready Hone].
      apply negb_true_iff in Hready.
      cbn [app dispatched received step fst].
      rewrite serialEvent_closed_form, Hready in *. cbn [orb] in *.
      rewrite (IH _ T) by exact Hrest.
      cbn [stringComplete inputString].
      rewrite (linesFrom_drain bytes _ _ Hone). reflexivity.
Qed.

(** X6. In a paced run that starts with the flag down and ends with an
    iteration, the strings handed to [processCommand] are exactly the
    completed lines of the byte stream, in order, each with exactly its own
    bytes: however the bytes of a line are split over serial events, and
    however many iterations run in between. *)
Theorem paced_lines_dispatched :
  forall (inputs : list Input) (s : State) (T : Z),
    stringComplete s = false ->
    paced false inputs = true ->
    dispatched (inputs ++ [Loop T]) s
    = linesFrom (inputString s) (received inputs).
Proof.
  intros inputs s T Hf Hp.
  rewrite (paced_dispatch_gen inputs s T) by (rewrite Hf; exact Hp).
  rewrite Hf. reflexivity.
Qed.

Lemma paced_lines_dispatched_witness :
  paced false [SerialEvent "ne"; Loop 501; SerialEvent "ck 9"; Loop 502;
               SerialEvent (line "0"); Loop 503; SerialEvent (line "eye 50")]
  = true /\
  dispatched ([SerialEvent "ne"; Loop 501; SerialEvent "ck 9"; Loop 502;
               SerialEvent (line "0"); Loop 503; SerialEvent (line "eye 50")]
              ++ [Loop 504]) initial
  = ["neck 90"; "eye 50"].
Proof.
  split; [reflexivity|].
  rewrite (paced_lines_dispatched
             [SerialEvent "ne"; Loop 501; SerialEvent "ck 9"; Loop 502;
              SerialEvent (line "0"); Loop 503; SerialEvent (line "eye 50")]
             initial 504 eq_refl eq_refl).
  reflexivity.
Defined.

Lemma loops_buffer_irrelevant (times : list Z) : forall (s : State) (buffer : string),
  stringComplete s = false ->
  run (map Loop times) (set_inputString s buffer)
  = (set_inputString (fst (run (map Loop times) s)) buffer,
     snd (run (map Loop times) s)).
Proof.
  induction times as [|T rest IH]; intros s buffer Hf; [reflexivity|].
  rewrite !map_cons, !run_cons. cbn [step].
  rewrite (loop_no_command _ s Hf).
  rewrite (loop_no_command _ (set_inputString s buffer) Hf).
  assert (Hs : set_inputString s buffer
               = set_stringComplete (set_inputString s buffer) false)
    by (destruct s; cbn in *; subst; reflexivity).
  rewrite Hs at 1 2 3. rewrite smooth_serial_side. cbn [fst snd].
  destruct (smooth_frame (millis T) s) as (_ & _ & Hf1). rewrite Hf in Hf1.
  assert (Hs1 : set_stringComplete
                  (set_inputString (fst (smoothJawMovement (millis T) s)) buffer)
                  false
                = set_inputString (fst (smoothJawMovement (millis T) s)) buffer)
    by (destruct (fst (smoothJawMovement (millis T) s)); cbn in *; subst;
        reflexivity).
  rewrite Hs1, (IH _ buffer Hf1). reflexivity.
Qed.

(** X7. Bytes without a terminator are inert. As long as no terminator is read,
    the run emits exactly what its iterations alone would emit (the
    interpolator's jaw writes), reaches the same jaw state, keeps the flag
    down, and keeps every byte read: the buffer grows by all of them. *)
Theorem unterminated_bytes_inert :
  forall (inputs : list Input) (s : State),
    stringComplete s = false ->
    unterminated inputs = true ->
    run inputs s
    = (set_inputString (fst (run (map Loop (loopTimes inputs)) s))
                       (inputString s ++ received inputs),
       snd (run (map Loop (loopTimes inputs)) s)).
Proof.
  induction inputs as [|i rest IH]; intros s Hf Hu.
  - simpl. rewrite append_empty_r. destruct s; reflexivity.
  - destruct i as [T|bytes].
    + cbn [unterminated loopTimes received] in *.
      rewrite map_cons, !run_cons. cbn [step].
      destruct (loop_serial_side (millis T) s) as [Hi Hf1].
      rewrite Hf in Hi. rewrite (IH _ Hf1 Hu), Hi. reflexivity.
    + cbn [unterminated loopTimes received] in *.
      apply andb_true_iff in Hu as [Hnl Hu]. apply negb_true_iff in Hnl.
      rewrite run_cons. cbn [step fst snd app].
      rewrite serialEvent_closed_form, Hf, Hnl, (withoutNewlines_none _ Hnl).
      cbn [orb].
      change (mkState (currentJawAngle s) (targetJawAngle s)
                      (lastJawUpdateTime s) (inputString s ++ bytes) false)
        with (set_inputString
                (mkState (currentJawAngle s) (targetJawAngle s)
                         (lastJawUpdateTime s) (inputString s) false)
                (inputString s ++ bytes)%string).
      assert (Hs : mkState (currentJawAngle s) (targetJawAngle s)
                           (lastJawUpdateTime s) (inputString s) false = s)
        by (destruct s; cbn in *; subst; reflexivity).
      rewrite Hs.
      rewrite (IH (set_inputString s (inputString s ++ bytes)%string) Hf Hu).
      rewrite (loops_buffer_irrelevant _ s _ Hf). cbn [fst snd inputString set_inputString].
      rewrite append_assoc_string. reflexivity.
Qed.

Lemma unterminated_bytes_inert_witness :
  snd (run [SerialEvent "garbage with no end"; Loop 506; SerialEvent "neck 90";
            Loop 512] (mkState 30 31 0 "" false))
  = [ServoWrite servoJaw 31] /\
  inputString (fst (run [SerialEvent "garbage with no end"; Loop 506;
                         SerialEvent "neck 90"; Loop 512]
                        (mkState 30 31 0 "" false)))
  = "garbage with no endneck 90".
Proof.
  rewrite (unterminated_bytes_inert
             [SerialEvent "garbage with no end"; Loop 506; SerialEvent "neck 90";
              Loop 512]
             (mkState 30 31 0 "" false) eq_refl eq_refl).
  split; reflexivity.
Defined.

(** ** The jaw servo follows [currentJawAngle] *)

(** The interpolator writes nothing and keeps the current angle, or writes
    the new current angle. *)
Lemma smooth_tracks currentTime s :
  (snd (smoothJawMovement currentTime s) = [] /\
   currentJawAngle (fst (smoothJawMovement currentTime s)) = currentJawAngle s)
  \/
  snd (smoothJawMovement currentTime s)
  = [ServoWrite servoJaw (currentJawAngle (fst (smoothJawMovement currentTime s)))].
Proof.
  unfold smoothJawMovement.
  destruct (JAW_UPDATE_DELAY_MS <=? to_ulong (currentTime - lastJawUpdateTime s));
    [|left; split; reflexivity].
  cbn [currentJawAngle targetJawAngle set_lastJawUpdateTime].
  destruct (currentJawAngle s <? targetJawAngle s); [right; reflexivity|].
  destruct (targetJawAngle s <? currentJawAngle s);
    [right; reflexivity | left; split; reflexivity].
Qed.

Lemma step_tracks (i : Input) (s : State) :
  (writesTo servoJaw (snd (step i s)) = [] /\
   currentJawAngle (fst (step i s)) = currentJawAngle s)
  \/ writesTo servoJaw (snd (step i s)) = [currentJawAngle (fst (step i s))].
Proof.
  destruct i as [T|bytes]; cbn [step fst snd].
  - destruct (loop_jaw (millis T) s) as (-> & _ & ->).
    destruct (smooth_tracks (millis T) s) as [[-> ->] | ->];
      [left; split; reflexivity | right; reflexivity].
  - left. destruct (serialEvent_jaw bytes s) as (-> & _). split; reflexivity.
Qed.

Lemma last_default (l : list Z) : forall (b d e : Z),
  last (b :: l) d = last (b :: l) e.
Proof.
  induction l as [|c l IH]; intros b d e; [reflexivity|].
  change (last (c :: l) d = last (c :: l) e). apply IH.
Qed.

Lemma last_cons_default (a : Z) (l : list Z) (d : Z) :
  last (a :: l) d = last l a.
Proof.
  destruct l as [|b l]; [reflexivity|].
  change (last (b :: l) d = last (b :: l) a). apply last_default.
Qed.

Lemma run_tracks (inputs : list Input) : forall (s : State),
  last (writesTo servoJaw (snd (run inputs s))) (currentJawAngle s)
  = currentJawAngle (fst (run inputs s)).
Proof.
  induction inputs as [|i rest IH]; intros s; [reflexivity|].
  rewrite run_cons. cbn [fst snd]. rewrite writesTo_app.
  destruct (step_tracks i s) as [[-> Hc] | ->].
  - cbn [app]. rewrite <- Hc. apply IH.
  - cbn [app]. rewrite last_cons_default. apply IH.
Qed.

(** X11. The jaw servo is where [currentJawAngle] says. From power-up, under any
    inputs, the angle last written to the jaw servo is the current jaw
    angle of the state. *)
Theorem jaw_servo_tracks_state :
  forall (inputs : list Input),
    last (writesTo servoJaw (snd (boot inputs))) 0
    = currentJawAngle (fst (boot inputs)).
Proof.
  intros inputs. rewrite boot_eq. cbn [fst snd]. rewrite writesTo_app.
  change (writesTo servoJaw (snd (setup initial))) with [INIT_JAW].
  cbn [app]. rewrite last_cons_default. apply (run_tracks inputs initial).
Qed.

Lemma smooth_one_degree currentTime s :
  jaw_in_range s ->
  oneDegreeSteps (currentJawAngle s)
                 (writesTo servoJaw (snd (smoothJawMovement currentTime s))).
Proof.
  intros [Hc Ht].
  pose proof (in_range_is_int _ Hc) as Hci.
  pose proof (in_range_is_int _ Ht) as Hti.
  destruct (elapsed currentTime s) eqn:He;
    [|rewrite (smooth_waiting _ _ He); exact I].
  destruct (Z.lt_trichotomy (currentJawAngle s) (targetJawAngle s)) as [H|[H|H]].
  - rewrite (smooth_up _ _ He H Hci Hti). simpl. split; [lia | exact I].
  - rewrite (smooth_idle _ _ He H). exact I.
  - rewrite (smooth_down _ _ He H Hci Hti). simpl. split; [lia | exact I].
Qed.

Lemma oneDegreeSteps_app (l1 : list Z) : forall (prev : Z) (l2 : list Z),
  oneDegreeSteps prev l1 -> oneDegreeSteps (last l1 prev) l2 ->
  oneDegreeSteps prev (l1 ++ l2).
Proof.
  induction l1 as [|a l1 IH]; intros prev l2 H1 H2; [exact H2|].
  destruct H1 as [Ha H1]. cbn [app oneDegreeSteps]. split; [exact Ha|].
  apply IH; [exact H1|]. rewrite last_cons_default in H2. exact H2.
Qed.

Lemma run_one_degree (inputs : list Input) : forall (s : State),
  jaw_in_range s ->
  oneDegreeSteps (currentJawAngle s) (writesTo servoJaw (snd (run inputs s))).
Proof.
  induction inputs as [|i rest IH]; intros s Hr; [exact I|].
  rewrite run_cons. cbn [fst snd]. rewrite writesTo_app.
  destruct (step_invariant i s Hr) as [Hr1 _].
  apply oneDegreeSteps_app.
  - destruct i as [T|bytes]; cbn [step snd]; [|exact I].
    destruct (loop_jaw (millis T) s) as (_ & _ & ->).
    apply smooth_one_degree, Hr.
  - pose proof (run_tracks [i] s) as Ht. rewrite run_cons in Ht.
    cbn [run fst snd] in Ht. rewrite app_nil_r in Ht. rewrite Ht.
    apply IH, Hr1.
Qed.

(** X12. The jaw never jumps. From power-up, under any inputs, the jaw writes
    are the start angle 30 written by [setup], then writes each exactly one
    degree from the one before. *)
Theorem jaw_never_jumps :
  forall (inputs : list Input),
    writesTo servoJaw (snd (boot inputs))
    = INIT_JAW :: writesTo servoJaw (snd (run inputs initial)) /\
    oneDegreeSteps INIT_JAW (writesTo servoJaw (snd (run inputs initial))).
Proof.
  intros inputs. split.
  - rewrite boot_eq. cbn [snd]. rewrite writesTo_app. reflexivity.
  - apply (run_one_degree inputs initial initial_in_range).
Qed.

(** ** The clock *)

(** X13. The elapsed-time test is exact across the wrap of [millis()]. If the
    timestamp was taken at time R and the iteration runs at time T, less
    than 2^32 ms later, the test of line 86 succeeds exactly when at least
    a quantum has passed, whether or not the 32-bit counter wrapped in
    between. *)
Theorem elapsed_test_exact :
  forall (R T : Z) (s : State),
    lastJawUpdateTime s = millis R ->
    R <= T < R + ULONG_MODULUS ->
    (elapsed (millis T) s = true <-> R + JAW_UPDATE_DELAY_MS <= T).
Proof.
  intros R T s Hl Hrange. rewrite elapsed_iff, Hl.
  unfold millis, to_ulong, ULONG_MODULUS, JAW_UPDATE_DELAY_MS in *.
  change (2 ^ 32) with 4294967296 in *.
  rewrite <- Zminus_mod, Z.mod_small by lia. lia.
Qed.

Lemma elapsed_test_exact_witness :
  elapsed (millis 4294967299) (mkState 30 30 (millis 4294967293) "" false) = true
  /\ millis 4294967299 = 3.
Proof.
  split; [|reflexivity].
  apply (elapsed_test_exact 4294967293 4294967299); [reflexivity | | ];
    unfold ULONG_MODULUS, JAW_UPDATE_DELAY_MS;
    change (2 ^ 32) with 4294967296; lia.
Defined.

(** ** What a run emits, command by command *)

Lemma directWrites_app evs1 evs2 :
  directWrites (evs1 ++ evs2) = directWrites evs1 ++ directWrites evs2.
Proof.
  induction evs1 as [|e evs1 IH]; [reflexivity|].
  destruct e as [| sv a | | | | |]; simpl; rewrite ?IH; try reflexivity.
  destruct sv; simpl; rewrite ?IH; reflexivity.
Qed.

Lemma smooth_direct_writes currentTime s :
  directWrites (snd (smoothJawMovement currentTime s)) = [].
Proof.
  destruct (smooth_tracks currentTime s) as [[-> _] | ->]; reflexivity.
Qed.

Lemma processCommand_events_stateless command s s' :
  snd (processCommand command s) = snd (processCommand command s').
Proof.
  rewrite !processCommand_cases.
  destruct (channelToken command) as [tok|]; [|reflexivity].
  destruct (equalsIgnoreCase tok "neck"); [reflexivity|].
  destruct (equalsIgnoreCase tok "jaw"); [reflexivity|].
  destruct (equalsIgnoreCase tok "eye"); [reflexivity|].
  destruct (equalsIgnoreCase tok "z"); reflexivity.
Qed.

Lemma processCommand_direct_writes command s :
  directWrites (snd (processCommand command s)) = commandWrites command /\
  (List.length (commandWrites command) <= 1)%nat.
Proof.
  unfold commandWrites.
  rewrite (processCommand_events_stateless command s initial).
  destruct (processCommand_events command initial) as [-> | (sv & Hsv & ->)].
  - split; [reflexivity | simpl; lia].
  - split; [|simpl; lia].
    destruct sv; [reflexivity | contradiction | reflexivity | reflexivity].
Qed.

Lemma loop_output currentTime s :
  directWrites (snd (loop currentTime s))
  = (if stringComplete s then commandWrites (inputString s) else []) /\
  printed (snd (loop currentTime s)) = (if stringComplete s then ["K"] else []).
Proof.
  split; [|apply loop_prints].
  rewrite loop_eq, serialCommandProcessing_eq.
  destruct (smooth_frame currentTime s) as (_ & Hi & Hf).
  rewrite Hf, Hi. cbn [snd]. rewrite directWrites_app, smooth_direct_writes.
  destruct (stringComplete s); cbn [snd app]; [|reflexivity].
  rewrite directWrites_app.
  destruct (processCommand_direct_writes
              (inputString s) (fst (smoothJawMovement currentTime s))) as [-> _].
  cbn [directWrites]. apply app_nil_r.
Qed.

Lemma run_output (inputs : list Input) : forall (s : State),
  directWrites (snd (run inputs s))
  = flat_map commandWrites (dispatched inputs s) /\
  printed (snd (run inputs s))
  = repeat "K" (List.length (dispatched inputs s)).
Proof.
  induction inputs as [|i rest IH]; intros s; [split; reflexivity|].
  rewrite run_cons. cbn [fst snd dispatched].
  rewrite directWrites_app, printed_app, flat_map_app, length_app, repeat_app.
  destruct (IH (fst (step i s))) as [-> ->].
  destruct i as [T|bytes]; cbn [step snd directWrites printed app].
  - destruct (loop_output (millis T) s) as [-> ->].
    destruct (stringComplete s); cbn; rewrite ?app_nil_r; split; reflexivity.
  - split; reflexivity.
Qed.

(** X8. The output of a run, command by command: under any inputs, the writes
    to neck, eye and z are those of the dispatched strings, in the order of
    dispatch, at most one per dispatched string, and one "K" is printed per
    dispatched string. *)
Theorem run_output_by_dispatch :
  forall (inputs : list Input) (s : State),
    directWrites (snd (run inputs s))
    = flat_map commandWrites (dispatched inputs s) /\
    printed (snd (run inputs s))
    = repeat "K" (List.length (dispatched inputs s)) /\
    Forall (fun command => (List.length (commandWrites command) <= 1)%nat)
           (dispatched inputs s).
Proof.
  intros inputs s. destruct (run_output inputs s) as [Hw Hp].
  split; [exact Hw|]. split; [exact Hp|].
  apply Forall_forall. intros command _.
  apply (processCommand_direct_writes command initial).
Qed.

(** X9. Paced reception, end to end: in a paced run that starts with an empty
    buffer and the flag down and ends with an iteration, the writes to
    neck, eye and z are those of the received lines, line by line, and the
    acknowledgments are as many as the completed lines received. *)
Theorem paced_run_output :
  forall (inputs : list Input) (s : State) (T : Z),
    stringComplete s = false -> inputString s = "" ->
    paced false inputs = true ->
    let r := run (inputs ++ [Loop T]) s in
    directWrites (snd r) = flat_map commandWrites (linesFrom "" (received inputs))
    /\ printed (snd r)
       = repeat "K" (List.length (linesFrom "" (received inputs))).
Proof.
  intros inputs s T Hf Hi Hp r. subst r.
  destruct (run_output (inputs ++ [Loop T]) s) as [-> ->].
  rewrite (paced_dispatch_gen inputs s T) by (rewrite Hf; exact Hp).
  rewrite Hf, Hi. split; reflexivity.
Qed.

Lemma paced_run_output_witness :
  directWrites
    (snd (run ([SerialEvent "nec"; Loop 501; SerialEvent (line "k 90");
                Loop 502; SerialEvent (line "foot 50"); Loop 503;
                SerialEvent (line "EYE 200")] ++ [Loop 504]) initial))
  = [(servoNeck, 90); (servoEye, 180)] /\
  printed
    (snd (run ([SerialEvent "nec"; Loop 501; SerialEvent (line "k 90");
                Loop 502; SerialEvent (line "foot 50"); Loop 503;
                SerialEvent (line "EYE 200")] ++ [Loop 504]) initial))
  = ["K"; "K"; "K"].
Proof.
  destruct (paced_run_output
              [SerialEvent "nec"; Loop 501; SerialEvent (line "k 90");
               Loop 502; SerialEvent (line "foot 50"); Loop 503;
               SerialEvent (line "EYE 200")] initial 504 eq_refl eq_refl eq_refl)
    as [Hw Hp].
  split; [rewrite Hw | rewrite Hp]; reflexivity.
Defined.

(** X10. One iteration emits little: at most one jaw write, at most one write to
    another servo, at most one printed line, three events at most; and
    without a completed line ready it neither writes to neck, eye or z nor
    prints. *)
Theorem iteration_effects_bounded :
  forall (currentTime : Z) (s : State),
    let evs := snd (loop currentTime s) in
    (List.length (writesTo servoJaw evs) <= 1)%nat /\
    (List.length (directWrites evs) <= 1)%nat /\
    (List.length (printed evs) <= 1)%nat /\
    (List.length evs <= 3)%nat /\
    (stringComplete s = false -> directWrites evs = [] /\ printed evs = []).
Proof.
  intros currentTime s evs. subst evs.
  destruct (loop_jaw currentTime s) as (_ & _ & Hj).
  destruct (loop_output currentTime s) as [Hd Hp].
  rewrite Hj, Hd, Hp.
  assert (Hsm : (List.length (snd (smoothJawMovement currentTime s)) <= 1)%nat)
    by (destruct (smooth_tracks currentTime s) as [[-> _] | ->]; simpl; lia).
  split.
  { destruct (smooth_tracks currentTime s) as [[-> _] | ->]; simpl; lia. }
  split.
  { destruct (stringComplete s); [|simpl; lia].
    apply (processCommand_direct_writes (inputString s) initial). }
  split; [destruct (stringComplete s); simpl; lia|].
  split; [|intros ->; split; reflexivity].
  rewrite loop_eq, serialCommandProcessing_eq. cbn [snd].
  destruct (stringComplete (fst (smoothJawMovement currentTime s)));
    cbn [snd]; rewrite ?length_app; [|simpl; lia].
  destruct (processCommand_events
              (inputString (fst (smoothJawMovement currentTime s)))
              (fst (smoothJawMovement currentTime s))) as [-> | (sv & _ & ->)];
    simpl; lia.
Qed.

Lemma iteration_effects_bounded_witness :
  snd (loop 6 (mkState 30 31 0 "neck 90" true))
  = [ServoWrite servoJaw 31; ServoWrite servoNeck 90; SerialPrintln "K"] /\
  (List.length (snd (loop 6 (mkState 30 31 0 "neck 90" true))) <= 3)%nat.
Proof.
  split; [reflexivity|].
  destruct (iteration_effects_bounded 6 (mkState 30 31 0 "neck 90" true))
    as (_ & _ & _ & Hlen & _).
  exact Hlen.
Defined.

(** ** A jaw command, from the wire to the servo *)

Lemma decimal_one_line (z : Z) : contains newline (decimal z) = false.
Proof.
  assert (Hd : forall d, contains newline
                           (DecimalString.NilEmpty.string_of_uint d) = false)
    by (induction d; simpl; auto).
  unfold decimal. destruct (z <? 0); [simpl; apply Hd | apply Hd].
Qed.

(** X14. The line "jaw z", read on its own and dispatched, then followed by
    enough iterations that each find the quantum elapsed: for z within
    [0, 180] the jaw ends at z exactly, and z is the last angle written to
    the jaw servo. *)
Theorem jaw_command_reaches_target :
  forall (z : Z) (s : State) (T : Z) (times : list Z),
    0 <= z <= 180 ->
    jaw_in_range s -> inputString s = "" -> stringComplete s = false ->
    let s2 := fst (run [SerialEvent (line ("jaw " ++ decimal z)); Loop T] s) in
    all_elapsed (lastJawUpdateTime s2) times ->
    (Z.abs_nat (z - currentJawAngle s2) <= List.length times)%nat ->
    let r := run (map Loop times) s2 in
    targetJawAngle s2 = z /\
    currentJawAngle (fst r) = z /\
    targetJawAngle (fst r) = z /\
    last (writesTo servoJaw (snd r)) (currentJawAngle s2) = z.
Proof.
  intros z s T times Hz Hr Hi Hf s2 Hel Hlen r.
  assert (Hzi : is_int z) by (apply in_range_is_int; exact Hz).
  destruct (well_formed_command "jaw" "" "" z ltac:(discriminate) eq_refl
              eq_refl eq_refl eq_refl Hzi) as [Htok Hang].
  cbn [append] in Htok, Hang. rewrite append_empty_r in Htok, Hang.
  change (String "j" (String "a" (String "w" (String space (decimal z)))))
    with ("jaw " ++ decimal z)%string in Htok, Hang.
  rewrite (constrain_fixes_range z Hz) in Hang.
  set (cmd := ("jaw " ++ decimal z)%string) in *.
  assert (Hnl : contains newline cmd = false)
    by (unfold cmd; cbn [append contains]; apply decimal_one_line).
  set (s1 := set_stringComplete (set_inputString s cmd) true).
  assert (Hs2 : s2 = set_stringComplete
                       (set_inputString
                          (set_targetJawAngle
                             (fst (smoothJawMovement (millis T) s1)) z) "")
                       false).
  { subst s2. rewrite run_cons. cbn [step fst snd run].
    rewrite (serialEvent_line cmd s Hnl), Hi. cbn [append]. fold s1.
    rewrite (loop_jaw_command (millis T) s1 "jaw" eq_refl Htok eq_refl).
    cbn [fst inputString set_stringComplete set_inputString s1].
    rewrite Hang. reflexivity. }
  assert (Hr1 : jaw_in_range s1) by exact Hr.
  destruct (smooth_invariant (millis T) s1 Hr1) as [[Hc1 _] _].
  assert (HT2 : targetJawAngle s2 = z) by (rewrite Hs2; reflexivity).
  assert (HF2 : stringComplete s2 = false) by (rewrite Hs2; reflexivity).
  assert (HC2 : in_range (currentJawAngle s2)) by (rewrite Hs2; exact Hc1).
  pose proof (in_range_is_int _ HC2) as HC2i.
  assert (HT2i : is_int (targetJawAngle s2)) by (rewrite HT2; exact Hzi).
  assert (Hfinal : currentJawAngle (fst r) = z /\ targetJawAngle (fst r) = z).
  { subst r. destruct (Z.le_ge_cases (currentJawAngle s2) (targetJawAngle s2))
      as [Hle|Hle].
    - pose proof (ticks_up times s2 HF2 HC2i HT2i Hle Hel) as H.
      cbn zeta in H. destruct H as (Hc & Ht & _).
      rewrite HT2 in Hc, Ht, Hle. split; [rewrite Hc; lia | exact Ht].
    - pose proof (ticks_down times s2 HF2 HC2i HT2i Hle Hel) as H.
      cbn zeta in H. destruct H as (Hc & Ht & _).
      rewrite HT2 in Hc, Ht, Hle. split; [rewrite Hc; lia | exact Ht]. }
  destruct Hfinal as [Hcz Htz].
  split; [exact HT2|]. split; [exact Hcz|]. split; [exact Htz|].
  subst r. rewrite run_tracks. exact Hcz.
Qed.

Lemma jaw_command_reaches_target_witness :
  let s2 := fst (run [SerialEvent (line "jaw 27"); Loop 500] initial) in
  currentJawAngle s2 = 30 /\
  currentJawAngle (fst (run (map Loop [506; 512; 518; 524]) s2)) = 27 /\
  writesTo servoJaw (snd (run (map Loop [506; 512; 518; 524]) s2))
  = [29; 28; 27].
Proof.
  cbn zeta. split; [reflexivity|]. split; [|reflexivity].
  destruct (jaw_command_reaches_target 27 initial 500 [506; 512; 518; 524]
              ltac:(lia) initial_in_range eq_refl eq_refl) as (_ & Hc & _).
  - vm_compute. repeat split; intros Hcmp; discriminate Hcmp.
  - vm_compute. lia.
  - exact Hc.
Defined.

(** ** The calibration sketch: properties *)

Module CalibrationFacts.
Import Calibration CalibrationTrace.

Lemma decimal_plain (z : Z) : all plain (decimal z) = true /\ decimal z <> "".
Proof.
  assert (Hd : forall d, all plain (DecimalString.NilEmpty.string_of_uint d) = true)
    by (induction d; simpl; auto).
  split.
  - unfold decimal. destruct (z <? 0); [simpl; apply Hd | apply Hd].
  - unfold decimal. destruct (z <? 0); [discriminate|].
    destruct (uint_starts_with_digit (Z.to_nat z)) as (c & r & -> & _).
    discriminate.
Qed.

Lemma is_int_long (z : Z) : is_int z -> - 2 ^ 31 < z < 2 ^ 31.
Proof.
  unfold is_int, INT_MIN, INT_MAX. change (2 ^ 15) with 32768.
  change (2 ^ 31) with 2147483648. lia.
Qed.

(** X15. The range line. Two decimal numerals separated by a space (further
    white space may follow the space, and surround the line) set minAngle
    and maxAngle to the two numbers, whatever they are: nothing checks that
    the first is below the second or that either is an angle a servo
    accepts. A line that has no space once trimmed keeps the range as it
    was. *)
Theorem range_line :
  (forall (a b : Z) (w1 pad w2 : string) (s : State),
      is_int a -> is_int b ->
      all isspace w1 = true -> all isspace pad = true -> all isspace w2 = true ->
      fst (configureRange
             (w1 ++ (decimal a ++ String space (pad ++ decimal b)) ++ w2) s)
      = mkState (pinNames s) a b) /\
  (forall (line : string) (s : State),
      contains space (trim line) = false ->
      fst (configureRange line s) = s).
Proof.
  split.
  - intros a b w1 pad w2 s Ha Hb H1 Hp H2.
    destruct (decimal_plain a) as [Hpa Hna].
    destruct (decimal_ends_plain b "" eq_refl) as [Hend Hne].
    rewrite append_empty_r in Hend, Hne.
    assert (Harg : (pad ++ decimal b)%string <> "")
      by (destruct pad; [exact Hne | discriminate]).
    assert (Hend' : ends_plain (pad ++ decimal b))
      by (apply trim_end_keep; assumption).
    destruct (split_at_space (decimal a) (pad ++ decimal b) Hna Hpa Harg Hend')
      as (Htrim & Hidx & Hpos & Hlong & Hsub & Hfrom).
    unfold configureRange. rewrite (trim_padded _ _ _ H1 H2), Htrim, Hidx.
    replace (1 <? len (decimal a ++ String space (pad ++ decimal b)))
      with true by (symmetry; apply Z.ltb_lt; exact Hlong).
    replace (0 <? len (decimal a)) with true
      by (symmetry; apply Z.ltb_lt; exact Hpos).
    cbn [andb fst pinNames minAngle maxAngle]. rewrite Hsub, Hfrom.
    unfold toInt. rewrite atol_c_str.
    pose proof (atol_decimal a "" "" eq_refl eq_refl (is_int_long a Ha)) as Hqa.
    cbn [append] in Hqa. rewrite append_empty_r in Hqa. rewrite Hqa.
    pose proof (atol_decimal b pad "" Hp eq_refl (is_int_long b Hb)) as Hqb.
    rewrite append_empty_r in Hqb. rewrite Hqb.
    rewrite (to_int_small a Ha), (to_int_small b Hb). reflexivity.
  - intros line s Hno. unfold configureRange, indexOf.
    rewrite (indexOf_absent _ _ 0 Hno).
    rewrite andb_false_r. cbn [fst]. reflexivity.
Qed.

Lemma range_line_witness :
  fst (configureRange ("170 " ++ "-20" ++ String "013" "") initial)
  = mkState [unnamed; unnamed; unnamed; unnamed; unnamed] 170 (-20).
Proof.
  assert (Hint : forall z, -200 <= z <= 200 -> is_int z).
  { intros z Hz. unfold is_int, INT_MIN, INT_MAX.
    change (2 ^ 15) with 32768. lia. }
  destruct range_line as [Hcustom _].
  apply (Hcustom 170 (-20) "" "" (String "013" "") initial
                 (Hint 170 ltac:(lia)) (Hint (-20) ltac:(lia))
                 eq_refl eq_refl eq_refl).
Defined.

Lemma serialOnly_facts (evs : list Event) (a : bool) :
  forallb serialOnly evs = true ->
  writes evs = [] /\ attaches evs = [] /\
  disciplined a evs = true /\ attachedAfter a evs = a.
Proof.
  induction evs as [|e evs IH]; intros H; [repeat split|].
  cbn [forallb] in H. apply andb_true_iff in H as [He Hr].
  destruct (IH Hr) as (H1 & H2 & H3 & H4).
  destruct e; try discriminate He; cbn; auto.
Qed.

Lemma writes_app evs1 evs2 : writes (evs1 ++ evs2) = writes evs1 ++ writes evs2.
Proof.
  induction evs1 as [|e evs1 IH]; [reflexivity|].
  destruct e; cbn; rewrite ?IH; reflexivity.
Qed.

Lemma attaches_app evs1 evs2 :
  attaches (evs1 ++ evs2) = attaches evs1 ++ attaches evs2.
Proof.
  induction evs1 as [|e evs1 IH]; [reflexivity|].
  destruct e; cbn; rewrite ?IH; reflexivity.
Qed.

Lemma disciplined_app evs1 : forall a evs2,
  disciplined a (evs1 ++ evs2)
  = disciplined a evs1 && disciplined (attachedAfter a evs1) evs2.
Proof.
  induction evs1 as [|e evs1 IH]; intros a evs2; [reflexivity|].
  destruct e; cbn; rewrite ?IH, ?andb_assoc; reflexivity.
Qed.

Lemma attachedAfter_app evs1 : forall a evs2,
  attachedAfter a (evs1 ++ evs2) = attachedAfter (attachedAfter a evs1) evs2.
Proof.
  induction evs1 as [|e evs1 IH]; intros a evs2; [reflexivity|].
  destruct e; cbn; rewrite ?IH; reflexivity.
Qed.

Lemma configureRange_serialOnly line s :
  forallb serialOnly (snd (configureRange line s)) = true.
Proof.
  unfold configureRange.
  destruct ((1 <? len (trim line)) && (0 <? indexOf (trim line) space));
    reflexivity.
Qed.

Lemma report_serialOnly pins : forall names,
  forallb serialOnly (report pins names) = true.
Proof.
  induction pins as [|p pins IH]; intros [|n names]; try reflexivity.
  cbn [report]. rewrite forallb_app, IH.
  destruct (negb (equals n "none") && negb (equals n "")); reflexivity.
Qed.

(** One pin's share of the events: the movement while attached, then,
    once the answer is in, the detach. *)
Lemma identify_spec (pins : list Z) : forall (i : nat) (lines : list string) (s : State),
  let o := fst (identify pins i lines s) in
  let evs := snd (identify pins i lines s) in
  minAngle (stateOf o) = minAngle s /\ maxAngle (stateOf o) = maxAngle s /\
  finished o = (List.length pins <=? List.length lines)%nat /\
  attaches evs = firstn (S (List.length lines)) pins /\
  writes evs = List.concat (map (fun _ => movement s) (attaches evs)) /\
  disciplined false evs = true /\
  attachedAfter false evs = negb (finished o).
Proof.
  induction pins as [|pin rest IH]; intros i lines s; cbn zeta.
  - cbn. repeat split.
  - cbn [identify]. destruct lines as [|line lines'].
    + cbn [fst snd stateOf finished List.length Nat.leb firstn].
      rewrite !writes_app, !attaches_app, disciplined_app, attachedAfter_app.
      cbn. repeat split.
    + set (s1 := mkState (store i (assign (toLowerCase (trim line))) (pinNames s))
                         (minAngle s) (maxAngle s)).
      specialize (IH (S i) lines' s1). cbn zeta in IH.
      destruct (identify rest (S i) lines' s1) as [o later].
      cbn [fst snd] in *. destruct IH as (H1 & H2 & H3 & H4 & H5 & H6 & H7).
      rewrite !writes_app, !attaches_app, !disciplined_app, !attachedAfter_app.
      cbn [List.length Nat.leb firstn].
      split; [exact H1|]. split; [exact H2|]. split; [exact H3|].
      cbn. rewrite H4, H5, H6, H7, H4. repeat split.
Qed.

(** [setup] after the range line: the outcome is that of the
    identification, and around its events there is serial traffic only. *)
Lemma setup_shape (first : string) (answers : list string) :
  let s0 := fst (configureRange first initial) in
  fst (setup (first :: answers)) = fst (identify PINS 0 answers s0) /\
  exists before after,
    snd (setup (first :: answers))
    = before ++ snd (identify PINS 0 answers s0) ++ after /\
    forallb serialOnly before = true /\ forallb serialOnly after = true.
Proof.
  cbn zeta. unfold setup.
  pose proof (configureRange_serialOnly first initial) as Hq.
  destruct (configureRange first initial) as [s0 ranged]. cbn [fst snd] in *.
  destruct (identify PINS 0 answers s0) as [[s|s] tested]; cbn [fst snd].
  - split; [reflexivity|].
    exists (greeting ++ ranged ++ identificationBanner).
    exists (reportBanner ++ report PINS (pinNames s) ++ closing).
    split; [rewrite <- !app_assoc; reflexivity|]. split.
    + rewrite !forallb_app, Hq. reflexivity.
    + rewrite !forallb_app, report_serialOnly. reflexivity.
  - split; [reflexivity|].
    exists (greeting ++ ranged ++ identificationBanner). exists [].
    split; [rewrite app_nil_r, <- !app_assoc; reflexivity|].
    split; [|reflexivity].
    rewrite !forallb_app, Hq. reflexivity.
Qed.

Lemma configureRange_names line s : pinNames (fst (configureRange line s)) = pinNames s.
Proof.
  unfold configureRange.
  destruct ((1 <? len (trim line)) && (0 <? indexOf (trim line) space));
    reflexivity.
Qed.

(** The trace of [setup] in terms of the movement. *)
Lemma setup_trace (lines : list string) :
  let o := fst (setup lines) in
  let evs := snd (setup lines) in
  finished o = (6 <=? List.length lines)%nat /\
  attaches evs = firstn (List.length lines) PINS /\
  writes evs = List.concat (map (fun _ => movement (stateOf o)) (attaches evs)) /\
  disciplined false evs = true /\
  attachedAfter false evs
  = match lines with [] => false | _ => negb (finished o) end.
Proof.
  cbn zeta. destruct lines as [|first answers].
  - cbn [setup fst snd finished List.length Nat.leb firstn].
    destruct (serialOnly_facts greeting false eq_refl) as (-> & -> & -> & ->).
    repeat split.
  - destruct (setup_shape first answers) as (Ho & before & after & Hev & Hb & Ha).
    cbn zeta in Ho, Hev. rewrite Ho, Hev.
    pose proof (identify_spec PINS 0 answers (fst (configureRange first initial)))
      as Hid.
    cbn zeta in Hid. destruct Hid as (H1 & H2 & H3 & H4 & H5 & H6 & H7).
    destruct (serialOnly_facts before false Hb) as (Wb & Ab & Db & Fb).
    rewrite !writes_app, !attaches_app, !disciplined_app, !attachedAfter_app.
    rewrite Wb, Ab, Db, Fb. cbn [app andb].
    destruct (serialOnly_facts
                after
                (attachedAfter false
                   (snd (identify PINS 0 answers (fst (configureRange first initial)))))
                Ha) as (Wa & Aa & Da & Fa).
    rewrite Wa, Aa, Da, Fa, !app_nil_r, H6, H7, H4, H5, H4.
    assert (Hm : movement
                   (stateOf (fst (identify PINS 0 answers
                                           (fst (configureRange first initial)))))
                 = movement (fst (configureRange first initial)))
      by (unfold movement; rewrite H1, H2; reflexivity).
    rewrite Hm, H3. repeat split.
Qed.

Lemma centre_between (m M : Z) :
  m <= M -> is_int (m + M) -> m <= Z.quot (to_int (m + M)) 2 <= M.
Proof.
  intros Hle Hint. rewrite (to_int_small _ Hint).
  pose proof (Z.quot_rem' (m + M) 2) as Hq.
  destruct (Z_le_gt_dec 0 (m + M)) as [Hs|Hs].
  - pose proof (Z.rem_bound_pos_pos (m + M) 2 ltac:(lia) Hs). lia.
  - pose proof (Z.rem_bound_pos_neg (m + M) 2 ltac:(lia) ltac:(lia)). lia.
Qed.

(** X16. The test movement stays within the range. Whatever is answered, the
    angles written are, for each pin attached so far, minAngle and maxAngle
    three times in turn and then the centre of the range; when minAngle is
    not above maxAngle (and their sum fits an int), every angle written
    lies between the two. *)
Theorem movement_within_range :
  forall (lines : list string),
    let s := stateOf (fst (setup lines)) in
    let evs := snd (setup lines) in
    writes evs
    = List.concat (map (fun _ => movement s) (firstn (List.length lines) PINS)) /\
    (minAngle s <= maxAngle s -> is_int (minAngle s + maxAngle s) ->
     Forall (fun a => minAngle s <= a <= maxAngle s) (writes evs)).
Proof.
  intros lines s evs.
  destruct (setup_trace lines) as (_ & Hatt & Hw & _).
  fold s evs in Hatt, Hw. rewrite Hatt in Hw.
  split; [exact Hw|]. intros Hle Hint. rewrite Hw.
  pose proof (centre_between _ _ Hle Hint) as Hc. clear Hw Hatt.
  induction (firstn (List.length lines) PINS) as [|p ps IH]; [constructor|].
  cbn [map List.concat]. apply Forall_app. split; [|exact IH].
  unfold movement. repeat constructor; lia.
Qed.

Lemma movement_within_range_witness :
  writes (snd (setup ["40 60"; "neck"]))
  = [40; 60; 40; 60; 40; 60; 50; 40; 60; 40; 60; 40; 60; 50] /\
  Forall (fun a => 40 <= a <= 60) (writes (snd (setup ["40 60"; "neck"]))).
Proof.
  destruct (movement_within_range ["40 60"; "neck"]) as [Hw Hin].
  split; [rewrite Hw; reflexivity|].
  apply Hin.
  - vm_compute. intros Hcmp; discriminate Hcmp.
  - vm_compute. split; intros Hcmp; discriminate Hcmp.
Defined.

(** X17. One servo at a time. In every run of the sketch the servo object is
    attached to a pin only while attached to none, and written and detached
    only while attached; the pins attached are the first of PINS, one per
    line read; while the sketch waits for an answer the pin under test is
    still attached, and when it returns none is. *)
Theorem servo_attach_discipline :
  forall (lines : list string),
    let o := fst (setup lines) in
    let evs := snd (setup lines) in
    disciplined false evs = true /\
    attaches evs = firstn (List.length lines) PINS /\
    (finished o = true -> attachedAfter false evs = false) /\
    (lines <> [] -> finished o = false -> attachedAfter false evs = true).
Proof.
  intros lines o evs.
  destruct (setup_trace lines) as (_ & Hatt & _ & Hd & Ha).
  fold o evs in Hatt, Hd, Ha.
  split; [exact Hd|]. split; [exact Hatt|]. rewrite Ha. split.
  - intros Hf. destruct lines; [reflexivity | rewrite Hf; reflexivity].
  - intros Hne Hf. destruct lines; [contradiction | rewrite Hf; reflexivity].
Qed.

Lemma servo_attach_discipline_witness :
  attaches (snd (setup ["s"; "neck"; "jaw"])) = [4; 5; 6] /\
  attachedAfter false (snd (setup ["s"; "neck"; "jaw"])) = true.
Proof.
  destruct (servo_attach_discipline ["s"; "neck"; "jaw"])
    as (_ & Hatt & _ & Hwait).
  split; [rewrite Hatt; reflexivity|].
  apply Hwait; [discriminate | reflexivity].
Defined.

Lemma identify_extra_lines (pins : list Z) :
  forall (i : nat) (lines more : list string) (s : State),
    (List.length pins <= List.length lines)%nat ->
    identify pins i (lines ++ more) s = identify pins i lines s.
Proof.
  induction pins as [|pin rest IH]; intros i lines more s Hlen; [reflexivity|].
  destruct lines as [|line lines']; [simpl in Hlen; lia|].
  cbn [identify app]. rewrite IH by (simpl in Hlen; lia). reflexivity.
Qed.

(** X18. Six lines, no more, no fewer. [setup] returns exactly when six
    lines have arrived (the range line and one answer per pin); with fewer
    it is left waiting, and lines beyond the sixth are never read. *)
Theorem setup_reads_six_lines :
  forall (lines more : list string),
    finished (fst (setup lines)) = (6 <=? List.length lines)%nat /\
    ((6 <= List.length lines)%nat -> setup (lines ++ more) = setup lines).
Proof.
  intros lines more. split; [apply (setup_trace lines)|].
  intros Hlen. destruct lines as [|first answers]; [simpl in Hlen; lia|].
  cbn [app setup]. destruct (configureRange first initial) as [s ranged].
  rewrite identify_extra_lines by (simpl in *; lia). reflexivity.
Qed.

Lemma setup_reads_six_lines_witness :
  finished (fst (setup ["s"; "neck"; "jaw"; "eye"; "z"])) = false /\
  finished (fst (setup ["s"; "neck"; "jaw"; "eye"; "z"; "none"; "more"])) = true.
Proof.
  split.
  - destruct (setup_reads_six_lines ["s"; "neck"; "jaw"; "eye"; "z"] [])
      as [-> _]. reflexivity.
  - destruct (setup_reads_six_lines
                ["s"; "neck"; "jaw"; "eye"; "z"; "none"; "more"] [])
      as [-> _]. reflexivity.
Defined.

(** *** The names *)

Lemma store_length (i : nat) (v : StoredName) (l : list StoredName) :
  List.length (store i v l) = List.length l.
Proof.
  revert i. induction l as [|n l IH]; intros [|i]; cbn; auto.
Qed.

Lemma store_firstn (l : list StoredName) : forall (i : nat) (v : StoredName),
  (i < List.length l)%nat ->
  firstn (S i) (store i v l) = firstn i l ++ [v].
Proof.
  induction l as [|n l IH]; intros [|i] v Hi; cbn in Hi; try lia.
  - reflexivity.
  - cbn [store]. change (firstn (S (S i)) (n :: store i v l))
      with (n :: firstn (S i) (store i v l)).
    rewrite IH by lia. reflexivity.
Qed.

Lemma store_skipn (l : list StoredName) : forall (i k : nat) (v : StoredName),
  skipn (S i + k) (store i v l) = skipn (S i + k) l.
Proof.
  induction l as [|n l IH]; intros [|i] k v; cbn; auto.
  apply (IH i k v).
Qed.

Lemma identify_names (pins : list Z) :
  forall (i : nat) (lines : list string) (s : State),
    List.length (pinNames s) = (i + List.length pins)%nat ->
    pinNames (stateOf (fst (identify pins i lines s)))
    = firstn i (pinNames s)
      ++ map stored (firstn (List.length pins) lines)
      ++ skipn (i + Nat.min (List.length pins) (List.length lines)) (pinNames s).
Proof.
  induction pins as [|pin rest IH]; intros i lines s Hlen.
  - cbn. rewrite Nat.add_0_r, firstn_skipn. reflexivity.
  - destruct lines as [|line lines'].
    + cbn. rewrite Nat.add_0_r, firstn_skipn. reflexivity.
    + cbn [identify].
      set (s1 := mkState (store i (assign (toLowerCase (trim line))) (pinNames s))
                         (minAngle s) (maxAngle s)).
      specialize (IH (S i) lines' s1).
      destruct (identify rest (S i) lines' s1) as [o later].
      cbn [fst snd] in *. rewrite IH.
      * subst s1. cbn [pinNames].
        rewrite store_firstn by (cbn in Hlen; lia).
        rewrite store_skipn. rewrite <- app_assoc.
        cbn [List.length Nat.min].
        replace (i + S (Nat.min (List.length rest) (List.length lines')))%nat
          with (S i + Nat.min (List.length rest) (List.length lines'))%nat by lia.
        reflexivity.
      * subst s1. cbn [pinNames]. rewrite store_length. cbn in Hlen. lia.
Qed.

Lemma toLowerCase_plain (s : string) : all plain s = true -> toLowerCase s = lower s.
Proof.
  induction s as [|c r IH]; intros H; [reflexivity|].
  simpl in H. apply andb_true_iff in H as [Hc Hr].
  unfold plain in Hc. apply andb_true_iff in Hc as [_ Hn].
  apply negb_true_iff in Hn. cbn [toLowerCase lower].
  rewrite Hn, (IH Hr). reflexivity.
Qed.

Lemma plain_no_space (s : string) :
  all plain s = true -> all (fun c => negb (isspace c)) s = true.
Proof.
  induction s as [|c r IH]; intros H; [reflexivity|].
  simpl in H. apply andb_true_iff in H as [Hc Hr].
  unfold plain in Hc. apply andb_true_iff in Hc as [Hs _].
  cbn [all]. rewrite Hs, (IH Hr). reflexivity.
Qed.

(** An answer that matches a name without regard to case, with white space
    around it, is stored as the name in lower case. *)
Lemma normalised_match (w1 core w2 name : string) :
  all isspace w1 = true -> all isspace w2 = true ->
  all plain name = true -> name <> "" ->
  equalsIgnoreCase core name = true ->
  normalised (w1 ++ core ++ w2) = lower name.
Proof.
  intros H1 H2 Hpn Hnn Hm.
  destruct (matching_token_plain core name Hm Hpn) as [Hpc Hnc].
  specialize (Hnc Hnn).
  unfold normalised. rewrite (trim_padded _ _ _ H1 H2).
  assert (Htrim : trim core = core).
  { unfold trim. destruct core as [|c r]; [contradiction|].
    simpl in Hpc. apply andb_true_iff in Hpc as [Hc Hr].
    rewrite (trim_begin_plain _ _ Hc).
    apply trim_end_no_space, plain_no_space. simpl. rewrite Hc, Hr. reflexivity. }
  rewrite Htrim, (toLowerCase_plain _ Hpc).
  apply equalsIgnoreCase_lower, Hm.
Qed.

Lemma normalised_blank (w : string) : all isspace w = true -> normalised w = "".
Proof.
  intros Hw. unfold normalised.
  pose proof (trim_padded w "" "" Hw eq_refl) as H.
  rewrite append_empty_r in H. rewrite H. reflexivity.
Qed.

Lemma tolower_not_NUL (c : ascii) :
  Ascii.eqb c NUL = false -> Ascii.eqb (tolower c) NUL = false.
Proof.
  destruct c as [[] [] [] [] [] [] [] []]; intros H; try reflexivity;
    discriminate H.
Qed.

Lemma contains_NUL_cons (c : ascii) (r : string) :
  contains NUL (String c r) = false ->
  Ascii.eqb c NUL = false /\ contains NUL r = false.
Proof. cbn [contains]. intros H. apply orb_false_iff in H. exact H. Qed.

Lemma trim_begin_no_NUL (s : string) :
  contains NUL s = false -> contains NUL (trim_begin s) = false.
Proof.
  induction s as [|c r IH]; intros H; [reflexivity|].
  cbn [trim_begin]. destruct (isspace c); [|exact H].
  apply IH. apply (contains_NUL_cons c r H).
Qed.

Lemma trim_end_no_NUL (s : string) :
  contains NUL s = false -> contains NUL (trim_end s) = false.
Proof.
  induction s as [|c r IH]; intros H; [reflexivity|].
  destruct (contains_NUL_cons c r H) as [Hc Hr]. specialize (IH Hr).
  cbn [trim_end]. destruct (trim_end r) as [|c' r'].
  - destruct (isspace c); [reflexivity|]. cbn [contains]. rewrite Hc. reflexivity.
  - cbn [contains] in *. rewrite Hc. exact IH.
Qed.

Lemma toLowerCase_no_NUL (s : string) :
  contains NUL s = false ->
  toLowerCase s = lower s /\ contains NUL (lower s) = false.
Proof.
  induction s as [|c r IH]; intros H; [split; reflexivity|].
  destruct (contains_NUL_cons c r H) as [Hc Hr].
  destruct (IH Hr) as [IH1 IH2].
  cbn [toLowerCase lower contains]. rewrite Hc, IH1, IH2.
  rewrite (tolower_not_NUL c Hc). split; reflexivity.
Qed.

Lemma c_str_no_NUL (s : string) : contains NUL s = false -> c_str s = s.
Proof.
  induction s as [|c r IH]; intros H; [reflexivity|].
  destruct (contains_NUL_cons c r H) as [Hc Hr].
  cbn [c_str]. rewrite Hc, (IH Hr). reflexivity.
Qed.

(** An answer without a NUL byte arrives whole. *)
Lemma stored_whole (answer : string) :
  contains NUL answer = false ->
  stored answer = mkStoredName (len (normalised answer)) (normalised answer).
Proof.
  intros H. unfold stored, assign, normalised.
  assert (Ht : contains NUL (trim answer) = false)
    by (apply trim_end_no_NUL, trim_begin_no_NUL, H).
  destruct (toLowerCase_no_NUL (trim answer) Ht) as [Hl Hn].
  rewrite Hl, (c_str_no_NUL _ Hn). reflexivity.
Qed.

(** X19. From the answers to the report. Each answer is trimmed and
    lower-cased, and assigned to the pin's element of pinNames, the pins not
    yet answered keeping the empty String. The assignment copies up to the
    first NUL byte: an answer without one is stored whole. In the report, a
    pin whose answer matches neck, jaw, eye or z without regard to case,
    with any white space around it, gets the line for PIN_NECK, PIN_JAW,
    PIN_EYE or PIN_Z with its pin number; a pin answered none, or with a
    blank line, gets no line. *)
Theorem answers_to_report :
  (forall (first : string) (answers : list string),
      pinNames (stateOf (fst (setup (first :: answers))))
      = map stored (firstn 5 answers)
        ++ repeat unnamed (5 - List.length answers)) /\
  (forall (answer : string),
      contains NUL answer = false ->
      stored answer = mkStoredName (len (normalised answer)) (normalised answer)) /\
  (forall (w1 core w2 : string) (pin : Z) (pins : list Z) (names : list StoredName),
      all isspace w1 = true -> all isspace w2 = true ->
      let name := stored (w1 ++ core ++ w2) in
      let declares (var : string) :=
        report (pin :: pins) (name :: names)
        = [Print "const int "; Print var; Print " = "; Print (decimal pin);
           Println ";"] ++ report pins names in
      (equalsIgnoreCase core "neck" = true -> declares "PIN_NECK") /\
      (equalsIgnoreCase core "jaw" = true -> declares "PIN_JAW") /\
      (equalsIgnoreCase core "eye" = true -> declares "PIN_EYE") /\
      (equalsIgnoreCase core "z" = true -> declares "PIN_Z") /\
      (equalsIgnoreCase core "none" = true \/ all isspace core = true ->
       report (pin :: pins) (name :: names) = report pins names)).
Proof.
  split; [|split].
  - intros first answers.
    destruct (setup_shape first answers) as [Ho _]. cbn zeta in Ho. rewrite Ho.
    rewrite (identify_names PINS 0 answers)
      by (rewrite configureRange_names; reflexivity).
    rewrite configureRange_names. cbn [firstn app PINS List.length].
    f_equal. cbn [pinNames initial].
    destruct answers as [|a0 [|a1 [|a2 [|a3 [|a4 more]]]]]; reflexivity.
  - exact stored_whole.
  - intros w1 core w2 pin pins names H1 H2 name declares.
    subst name declares. unfold stored.
    repeat split; try intros Hm.
    + rewrite (normalised_match w1 core w2 "neck" H1 H2 eq_refl
                 ltac:(discriminate) Hm). reflexivity.
    + rewrite (normalised_match w1 core w2 "jaw" H1 H2 eq_refl
                 ltac:(discriminate) Hm). reflexivity.
    + rewrite (normalised_match w1 core w2 "eye" H1 H2 eq_refl
                 ltac:(discriminate) Hm). reflexivity.
    + rewrite (normalised_match w1 core w2 "z" H1 H2 eq_refl
                 ltac:(discriminate) Hm). reflexivity.
    + destruct Hm as [Hm|Hm].
      * rewrite (normalised_match w1 core w2 "none" H1 H2 eq_refl
                   ltac:(discriminate) Hm). reflexivity.
      * assert (Hb : all isspace (w1 ++ core ++ w2) = true).
        { clear - H1 H2 Hm.
          assert (Happ : forall a b, all isspace a = true -> all isspace b = true ->
                                     all isspace (a ++ b) = true).
          { induction a as [|c r IH]; intros b Ha Hb; [exact Hb|].
            simpl in Ha. apply andb_true_iff in Ha as [Hc Hr].
            cbn [append all]. rewrite Hc. apply IH; assumption. }
          apply Happ; [exact H1|]. apply Happ; assumption. }
        rewrite (normalised_blank _ Hb). reflexivity.
Qed.

Lemma answers_to_report_witness :
  pinNames (stateOf (fst (setup ["s"; " NECK"; "none"; ("Ne" ++ String NUL "CK")%string])))
  = [mkStoredName 4 "neck"; mkStoredName 4 "none"; mkStoredName 5 "ne";
     unnamed; unnamed] /\
  contains NUL " NECK" = false /\
  stored " NECK" = mkStoredName 4 "neck" /\
  report [4] [stored (" " ++ "NECK" ++ String "013" "")]
  = [Print "const int "; Print "PIN_NECK"; Print " = "; Print "4"; Println ";"].
Proof.
  destruct answers_to_report as (Hnames & Hwhole & Hreport).
  split; [rewrite Hnames; reflexivity|].
  split; [reflexivity|].
  split; [rewrite (Hwhole " NECK" eq_refl); reflexivity|].
  destruct (Hreport " " "NECK" (String "013" "") 4 [] [] eq_refl eq_refl)
    as (Hneck & _).
  rewrite (Hneck eq_refl). reflexivity.
Defined.

End CalibrationFacts.
